(** * pyMOR: NumpyVectorArray (copy-on-write vector arrays) and to_matrix

    A shallow embedding of

    - [src/pymor/vectorarrays/numpy.py]  (class [NumpyVectorArray]) and
    - [src/pymor/algorithms/to_matrix.py] (function [to_matrix] and the rule
      table [ToMatrixRules]),

    together with the properties of the two components.

    Conventions.
    - Python objects live in an explicit [store]: NumPy buffers, the
      one-element lists used as shared reference counters, and the
      [NumpyVectorArray] instances themselves are addressed by natural
      numbers, so that aliasing is visible.
    - Python methods are written in a small state-and-error monad [St];
      a failing [assert] is the error [AssertionError].
    - Scalars are the elements of a numeric field [K] (the real or complex
      numbers of the arrays); NumPy's element type is kept as a tag.
    - NumPy and SciPy are external: their array and matrix operations are
      modelled by what they compute in exact arithmetic. *)

From Stdlib Require Import String.
From HB Require Import structures.
From mathcomp Require Import ssreflect ssrfun ssrbool eqtype ssrnat seq path.
From mathcomp Require Import choice fintype bigop order ssralg ssrnum ssrint.
From mathcomp Require Import matrix rat.

Set Implicit Arguments.
Unset Strict Implicit.
Unset Printing Implicit Defensive.

Import GRing.Theory Num.Theory Order.Theory.

Local Open Scope ring_scope.

(** ** Errors

    The exceptions of Python that the code and the libraries it calls
    raise. [NoMatrix] is not one of them: it ends a run in which a solver of
    SciPy hands back a value that is not a matrix of the expected shape with
    entries in the field (a one-dimensional array, or an array filled with
    NaN after a warning), which the matrices below cannot hold. *)

Inductive exn :=
  | AssertionError | IndexError | AttributeError | LinAlgError | ValueError
  | RuntimeError | NoMatrix.

Inductive result (A : Type) := Ok of A | Raise of exn.
Arguments Raise {A} e.

Definition is_ok A (r : result A) : bool := if r is Ok _ then true else false.

(** ** Element types of NumPy buffers *)

Inductive Dtype := Int64 | Float64 | Complex128.

Definition dtype_rank (d : Dtype) : nat :=
  match d with Int64 => 0 | Float64 => 1 | Complex128 => 2 end.

Definition dtype_eqb (d1 d2 : Dtype) : bool := dtype_rank d1 == dtype_rank d2.

(** [np.promote_types] on the three element types above. *)
Definition promote_types (d1 d2 : Dtype) : Dtype :=
  if (dtype_rank d1 <= dtype_rank d2)%N then d2 else d1.

(** ** Row indices: [None], a number, or a list of numbers *)

Inductive Ind := IndNone | IndNum of int | IndList of seq int.

Section Pymor.

Variable K : numFieldType.

(** [pymor.core.NUMPY_INDEX_QUIRK]: a constant of the installation. *)
Variable NUMPY_INDEX_QUIRK : bool.

(** ** NumPy buffers (two-dimensional, owning their data) *)

Record ndarray := Ndarray {
  dtype : Dtype;
  shape1 : nat;                  (* number of columns *)
  rows : seq (seq K)             (* shape[0] = size rows *)
}.

Definition shape0 (a : ndarray) : nat := size (rows a).

Definition ndarray_wf (a : ndarray) : bool :=
  all (fun r => size r == shape1 a) (rows a).

(** ** NumpyVectorArray instances and the store *)

Record VA := mkVA {
  _array : nat;                  (* address of the buffer *)
  _len : nat;                    (* logical length *)
  _refcount : nat                (* address of the one-element counter list *)
}.

Record store := Store {
  arrays : seq ndarray;
  cells : seq int;
  objs : seq VA
}.

Definition array0 : ndarray := Ndarray Float64 0 [::].
Definition VA0 : VA := mkVA 0 0 0.

Definition obj (s : store) (v : nat) : VA := nth VA0 (objs s) v.
Definition buffer (s : store) (a : nat) : ndarray := nth array0 (arrays s) a.
Definition cell (s : store) (c : nat) : int := nth 0 (cells s) c.

(** The buffer and the reference count an instance currently sees. *)
Definition array_of (s : store) (v : nat) : ndarray := buffer s (_array (obj s v)).
Definition refcount_of (s : store) (v : nat) : int := cell s (_refcount (obj s v)).

(** [self.data], i.e. [self._array[:self._len]]: the logical contents. *)
Definition data (s : store) (v : nat) : seq (seq K) :=
  take (_len (obj s v)) (rows (array_of s v)).

(** [len(self)] and [self.dim] *)
Definition len (s : store) (v : nat) : nat := _len (obj s v).
Definition dim (s : store) (v : nat) : nat := shape1 (array_of s v).

(** ** The state-and-error monad of the methods *)

Definition St (A : Type) := store -> result (A * store).

Definition ret A (a : A) : St A := fun s => Ok (a, s).

Definition bind A B (c : St A) (k : A -> St B) : St B :=
  fun s => match c s with
           | Ok (a, s') => k a s'
           | Raise e => Raise e
           end.

Notation "x <- c ;; k" := (bind c (fun x => k))
  (at level 100, c at next level, right associativity).
Notation "c ;;; k" := (bind c (fun _ => k))
  (at level 100, right associativity).

Definition assert (b : bool) : St unit :=
  fun s => if b then Ok (tt, s) else Raise AssertionError.

Definition read A (f : store -> A) : St A := fun s => Ok (f s, s).

Definition when (b : bool) (c : St unit) : St unit := if b then c else ret tt.

(** The elementary changes of a store: allocation of a fresh buffer,
    counter or instance, and writes in place. *)
Definition alloc_array (A : ndarray) (s : store) : store :=
  Store (rcons (arrays s) A) (cells s) (objs s).
Definition alloc_cell (n : int) (s : store) : store :=
  Store (arrays s) (rcons (cells s) n) (objs s).
Definition alloc_obj (o : VA) (s : store) : store :=
  Store (arrays s) (cells s) (rcons (objs s) o).
Definition put_buffer (a : nat) (A : ndarray) (s : store) : store :=
  Store (set_nth array0 (arrays s) a A) (cells s) (objs s).
Definition put_cell (c : nat) (n : int) (s : store) : store :=
  Store (arrays s) (set_nth 0 (cells s) c n) (objs s).
Definition put_obj (v : nat) (o : VA) (s : store) : store :=
  Store (arrays s) (cells s) (set_nth VA0 (objs s) v o).

Definition new_ndarray (A : ndarray) : St nat :=
  fun s => Ok (size (arrays s), alloc_array A s).
Definition new_cell (n : int) : St nat :=
  fun s => Ok (size (cells s), alloc_cell n s).
Definition new_obj (o : VA) : St nat :=
  fun s => Ok (size (objs s), alloc_obj o s).
Definition write_ndarray (a : nat) (A : ndarray) : St unit :=
  fun s => Ok (tt, put_buffer a A s).
Definition write_cell (c : nat) (n : int) : St unit :=
  fun s => Ok (tt, put_cell c n s).
Definition write_obj (v : nat) (o : VA) : St unit :=
  fun s => Ok (tt, put_obj v o s).

(** Attribute assignments [self._array = ...], [self._len = ...],
    [self._refcount = ...]. *)
Definition set_array (v a : nat) : St unit :=
  o <- read (obj^~ v) ;; write_obj v (mkVA a (_len o) (_refcount o)).

Definition set_len (v n : nat) : St unit :=
  o <- read (obj^~ v) ;; write_obj v (mkVA (_array o) n (_refcount o)).

Definition set_refcount (v c : nat) : St unit :=
  o <- read (obj^~ v) ;; write_obj v (mkVA (_array o) (_len o) c).

(** ** Index checks *)

Definition in_range (n : nat) (i : int) : bool := (0 <= i) && (i < n%:Z).

(** Modelled from the spec: [VectorArrayInterface.check_ind] (module
    [pymor.vectorarrays.interfaces], not part of the sources at hand):
    admissible indices are [None], or a number or a list of numbers in
    [[0, length)]. *)
Definition check_ind (n : nat) (ind : Ind) : bool :=
  match ind with
  | IndNone => true
  | IndNum i => in_range n i
  | IndList l => all (in_range n) l
  end.

(** Modelled from the spec: [VectorArrayInterface.check_ind_unique]: as
    [check_ind], and a list of indices must not repeat an index. *)
Definition check_ind_unique (n : nat) (ind : Ind) : bool :=
  match ind with
  | IndList l => all (in_range n) l && uniq l
  | _ => check_ind n ind
  end.

(** Modelled from the spec: [VectorArrayInterface.len_ind]: the number of
    selected rows. *)
Definition len_ind (n : nat) (ind : Ind) : nat :=
  match ind with
  | IndNone => n
  | IndNum _ => 1
  | IndList l => size l
  end.

(** [hasattr(ind, '__len__')] and [isinstance(ind, Number)] *)
Definition has_len (ind : Ind) : bool := if ind is IndList _ then true else false.
Definition is_Number (ind : Ind) : bool := if ind is IndNum _ then true else false.

(** The rows selected by an (admissible) index, as positions. *)
Definition positions (n : nat) (ind : Ind) : seq nat :=
  match ind with
  | IndNone => iota 0 n
  | IndNum i => [:: absz i]
  | IndList l => map absz l
  end.

(** ** Indexing of buffers *)

(** [A[ind]] for a list of positions: a new array of the selected rows. *)
Definition getitem (r : seq (seq K)) (pos : seq nat) : seq (seq K) :=
  [seq nth [::] r i | i <- pos].

(** [A[ind] = vals] for a list of positions, assigned in order. *)
Definition setitem (r : seq (seq K)) (pos : seq nat) (vals : seq (seq K)) :
  seq (seq K) :=
  foldl (fun r' p => set_nth [::] r' p.1 p.2) r (zip pos vals).

(** Broadcasting of a block of rows against [k] selected rows: a block of
    one row is repeated. *)
Definition broadcast (k : nat) (B : seq (seq K)) : seq (seq K) :=
  if size B == k then B else nseq k (head [::] B).

(** ** Construction *)

(** [NumpyVectorArray.__init__] for an [np.ndarray] instance of dimension
    two: [contents] are the entries of the instance; [alias] is [Some a]
    when the instance is the buffer at address [a] itself and [copy] is
    false, so that the new array shares it. *)
Definition init (contents : ndarray) (alias : option nat) (copy : bool) : St nat :=
  a <- (if (alias, copy) is (Some a, false) then ret a
        else new_ndarray contents) ;;
  c <- new_cell 1 ;;
  new_obj (mkVA a (shape0 contents) c).

(** ** [_deep_copy] *)

Definition _deep_copy (self : nat) : St unit :=
  A <- read (array_of^~ self) ;;
  a' <- new_ndarray A ;;                       (* self._array.copy() *)
  set_array self a' ;;;
  rc <- read (fun s => _refcount (obj s self)) ;;
  n <- read (cell^~ rc) ;;
  write_cell rc (n - 1) ;;;                    (* self._refcount[0] -= 1 *)
  rc' <- new_cell 1 ;;
  set_refcount self rc'.                       (* self._refcount = [1] *)

(** The common prologue of the mutators:
    [if self._refcount[0] > 1: self._deep_copy()]. *)
Definition cow (self : nat) : St unit :=
  n <- read (refcount_of^~ self) ;;
  when (1 < n) (_deep_copy self).

(** ** [copy] *)

Definition copy (self : nat) (ind : Ind) (deep : bool) : St nat :=
  n <- read (len^~ self) ;;
  assert (check_ind n ind) ;;;
  A <- read (array_of^~ self) ;;
  if ~~ deep && (if ind is IndNone then true else false) then
    a <- read (fun s => _array (obj s self)) ;;
    c <- init A (Some a) false ;;
    set_len c n ;;;
    rc <- read (fun s => _refcount (obj s self)) ;;
    set_refcount c rc ;;;
    k <- read (cell^~ rc) ;;
    write_cell rc (k + 1) ;;;
    ret c
  else if NUMPY_INDEX_QUIRK && (n == 0%N) then
    init (Ndarray (dtype A) (shape1 A) [::]) None true
  else if ind is IndNone then
    init (Ndarray (dtype A) (shape1 A) (take n (rows A))) None true
  else
    (* self._array[ind] is a view or a new array; in both cases the
       result ends up owning a fresh buffer *)
    init (Ndarray (dtype A) (shape1 A) (getitem (rows A) (positions n ind)))
         None true.


(** ** Scaling coefficients

    [alpha] is a Python number or a one-dimensional [np.ndarray]; both come
    with an element type. *)

Inductive Alpha := AlphaNum of Dtype & K | AlphaArray of Dtype & seq K.

Definition alpha_dtype (alpha : Alpha) : Dtype :=
  match alpha with AlphaNum d _ => d | AlphaArray d _ => d end.

Definition is_ndarray (alpha : Alpha) : bool :=
  if alpha is AlphaArray _ _ then true else false.

(** [isinstance(alpha, _INDEXTYPES) or
     isinstance(alpha, np.ndarray) and alpha.shape == (k,)] *)
Definition alpha_ok (alpha : Alpha) (k : nat) : bool :=
  match alpha with AlphaNum _ _ => true | AlphaArray _ a => size a == k end.

(** [np.all(alpha == c)] *)
Definition np_all_eq (alpha : Alpha) (c : K) : bool :=
  match alpha with
  | AlphaNum _ a => a == c
  | AlphaArray _ a => all (fun x => x == c) a
  end.

(** ** Element-wise arithmetic on blocks of rows *)

Definition map2 A B C (f : A -> B -> C) (s : seq A) (t : seq B) : seq C :=
  [seq f p.1 p.2 | p <- zip s t].

Definition add_row (r1 r2 : seq K) : seq K := map2 +%R r1 r2.
Definition sub_row (r1 r2 : seq K) : seq K := map2 (fun a b => a - b) r1 r2.
Definition scale_row (r : seq K) (a : K) : seq K := [seq x * a | x <- r].

(** [X + B], [X - B] with [B] broadcast against the rows of [X]. *)
Definition add_rows (X B : seq (seq K)) : seq (seq K) :=
  map2 add_row X (broadcast (size X) B).
Definition sub_rows (X B : seq (seq K)) : seq (seq K) :=
  map2 sub_row X (broadcast (size X) B).

(** [B * alpha] for a number [alpha] *)
Definition mul_num (B : seq (seq K)) (a : K) : seq (seq K) :=
  [seq scale_row r a | r <- B].

(** [B * alpha[:, np.newaxis]] for a one-dimensional array [alpha]: row [j]
    of the (broadcast) block is multiplied by [alpha[j]]. *)
Definition mul_column (B : seq (seq K)) (a : seq K) : seq (seq K) :=
  map2 scale_row (broadcast (size a) B) a.

(** [r * alpha] for a single row [r] and a one-dimensional [alpha] (of
    shape [(1,)], by broadcasting). *)
Definition mul_row_array (r : seq K) (a : seq K) : seq K :=
  if size a == 1%N then scale_row r (head 0 a) else map2 *%R r a.

(** In-place update of the buffer of [self]. *)
Definition update_array (self : nat) (g : ndarray -> ndarray) : St unit :=
  a <- read (fun s => _array (obj s self)) ;;
  A <- read (buffer^~ a) ;;
  write_ndarray a (g A).

Definition with_rows (A : ndarray) (r : seq (seq K)) : ndarray :=
  Ndarray (dtype A) (shape1 A) r.

(** [self._array[:n] = f(self._array[:n])] *)
Definition on_slice (n : nat) (f : seq (seq K) -> seq (seq K)) (A : ndarray) :=
  with_rows A (f (take n (rows A)) ++ drop n (rows A)).

(** [self._array[ind] = f(self._array[ind])] for a list [ind] *)
Definition on_index (pos : seq nat) (f : seq (seq K) -> seq (seq K)) (A : ndarray) :=
  with_rows A (setitem (rows A) pos (f (getitem (rows A) pos))).

(** [self._array[i] = f(self._array[i])] for a number [i] *)
Definition on_row (i : nat) (f : seq K -> seq K) (A : ndarray) :=
  with_rows A (set_nth [::] (rows A) i (f (nth [::] (rows A) i))).

(** [self._array = self._array.astype(dt)]: always a new buffer. *)
Definition astype (self : nat) (dt : Dtype) : St unit :=
  A <- read (array_of^~ self) ;;
  a' <- new_ndarray (Ndarray dt (shape1 A) (rows A)) ;;
  set_array self a'.

(** ** [scal] *)

(** The part of [scal] after the copy-on-write prologue. *)
Definition scal_update (self n : nat) (alpha : Alpha) (ind : Ind) : St unit :=
  if NUMPY_INDEX_QUIRK && (n == 0%N) then ret tt else
  A <- read (array_of^~ self) ;;
  when (~~ dtype_eqb (dtype A) (alpha_dtype alpha))
       (astype self (promote_types (dtype A) (alpha_dtype alpha))) ;;;
  match ind, alpha with
  | IndNone, AlphaNum _ a => update_array self (on_slice n (mul_num^~ a))
  | IndNone, AlphaArray _ a => update_array self (on_slice n (mul_column^~ a))
  | IndNum i, AlphaNum _ a => update_array self (on_row (absz i) (scale_row^~ a))
  | IndNum i, AlphaArray _ a =>
      update_array self (on_row (absz i) (mul_row_array^~ a))
  | IndList l, AlphaNum _ a =>
      update_array self (on_index (map absz l) (mul_num^~ a))
  | IndList l, AlphaArray _ a =>
      update_array self (on_index (map absz l) (mul_column^~ a))
  end.

Definition scal (self : nat) (alpha : Alpha) (ind : Ind) : St unit :=
  n <- read (len^~ self) ;;
  assert (check_ind_unique n ind) ;;;
  assert (alpha_ok alpha (len_ind n ind)) ;;;
  cow self ;;;
  scal_update self n alpha ind.

(** ** [axpy] *)

(** [B * alpha] in the general branch, after
    [if isinstance(alpha, np.ndarray): alpha = alpha[:, np.newaxis]]. *)
Definition mul_alpha (B : seq (seq K)) (alpha : Alpha) : seq (seq K) :=
  match alpha with
  | AlphaNum _ a => mul_num B a
  | AlphaArray _ a => mul_column B a
  end.

(** The three in-place updates of [axpy]; [op] is [+=] or [-=] on blocks
    and [opr] the same on single rows. *)
Definition axpy_add (self n : nat) (ind : Ind) (B : seq (seq K)) : St unit :=
  match ind with
  | IndNone => update_array self (on_slice n (add_rows^~ B))
  | IndNum i =>
      (* B.ndim == 2 always: self._array[ind] += B.reshape((B.shape[1],)) *)
      update_array self (on_row (absz i) (add_row^~ (head [::] B)))
  | IndList l => update_array self (on_index (map absz l) (add_rows^~ B))
  end.

Definition axpy_sub (self n : nat) (ind : Ind) (B : seq (seq K)) : St unit :=
  match ind with
  | IndNone => update_array self (on_slice n (sub_rows^~ B))
  | IndNum i => update_array self (on_row (absz i) (sub_row^~ (head [::] B)))
  | IndList l => update_array self (on_index (map absz l) (sub_rows^~ B))
  end.

(** The general multiply-and-add branch. *)
Definition axpy_general (self n : nat) (ind : Ind) (B : seq (seq K))
    (alpha : Alpha) : St unit :=
  match ind with
  | IndNone => update_array self (on_slice n (add_rows^~ (mul_alpha B alpha)))
  | IndNum i =>
      (* self._array[ind] += (B * alpha).reshape((-1,)) *)
      update_array self (on_row (absz i) (add_row^~ (flatten (mul_alpha B alpha))))
  | IndList l =>
      update_array self (on_index (map absz l) (add_rows^~ (mul_alpha B alpha)))
  end.

(** The type promotion of [axpy]. *)
Definition axpy_promote (self : nat) (alpha : Alpha) (Bdt : Dtype) : St unit :=
  A <- read (array_of^~ self) ;;
  when (~~ dtype_eqb (dtype A) (alpha_dtype alpha) || ~~ dtype_eqb (dtype A) Bdt)
       (astype self (promote_types (promote_types (dtype A) (alpha_dtype alpha)) Bdt)).

(** The part of [axpy] after the copy-on-write prologue. *)
Definition axpy_update (self n : nat) (alpha : Alpha) (x : nat) (ind : Ind) :
  St unit :=
  let ind := if NUMPY_INDEX_QUIRK && ((n == 0%N) && has_len ind) then IndNone
             else ind in
  if np_all_eq alpha 0 then ret tt else
  B <- read (data^~ x) ;;
  Bdt <- read (fun s => dtype (array_of s x)) ;;
  axpy_promote self alpha Bdt ;;;
  if np_all_eq alpha 1 then axpy_add self n ind B
  else if np_all_eq alpha (-1) then axpy_sub self n ind B
  else axpy_general self n ind B alpha.

(** The assertions of [axpy]. *)
Definition axpy_pre (s : store) (self : nat) (alpha : Alpha) (x : nat)
    (ind : Ind) : bool :=
  [&& check_ind_unique (len s self) ind, dim s self == dim s x,
      (len_ind (len s self) ind == len s x) || (len s x == 1%N)
    & alpha_ok alpha (len_ind (len s self) ind)].

Definition axpy (self : nat) (alpha : Alpha) (x : nat) (ind : Ind) : St unit :=
  n <- read (len^~ self) ;;
  assert (check_ind_unique n ind) ;;;
  dself <- read (dim^~ self) ;;
  dx <- read (dim^~ x) ;;
  assert (dself == dx) ;;;
  lx <- read (len^~ x) ;;
  assert ((len_ind n ind == lx) || (lx == 1%N)) ;;;
  assert (alpha_ok alpha (len_ind n ind)) ;;;
  cow self ;;;
  axpy_update self n alpha x ind.

(** The multiply-and-add [v[i] += alpha[i] * x[i]] without the branches
    for [alpha == 1] and [alpha == -1]: the reference for those branches. *)
Definition axpy_update_general (self n : nat) (alpha : Alpha) (x : nat)
    (ind : Ind) : St unit :=
  let ind := if NUMPY_INDEX_QUIRK && ((n == 0%N) && has_len ind) then IndNone
             else ind in
  if np_all_eq alpha 0 then ret tt else
  B <- read (data^~ x) ;;
  Bdt <- read (fun s => dtype (array_of s x)) ;;
  axpy_promote self alpha Bdt ;;;
  axpy_general self n ind B alpha.

Definition axpy_multiply_add (self : nat) (alpha : Alpha) (x : nat) (ind : Ind) :
  St unit :=
  n <- read (len^~ self) ;;
  assert (check_ind_unique n ind) ;;;
  dself <- read (dim^~ self) ;;
  dx <- read (dim^~ x) ;;
  assert (dself == dx) ;;;
  lx <- read (len^~ x) ;;
  assert ((len_ind n ind == lx) || (lx == 1%N)) ;;;
  assert (alpha_ok alpha (len_ind n ind)) ;;;
  cow self ;;;
  axpy_update_general self n alpha x ind.

(** ** [remove] *)

(** [range(lo, hi)] on Python integers. *)
Definition pyrange (lo hi : int) : seq int :=
  if lo <= hi then [seq lo + k%:Z | k <- iota 0 (absz (hi - lo))] else [::].

(** The position a Python index denotes in a sequence of [m] rows
    (negative indices count from the end). *)
Definition pyindex (m : nat) (i : int) : nat :=
  if 0 <= i then absz i else absz (i + m%:Z).

Definition int_leb (a b : int) : bool := a <= b.

(** [sorted(set(range(n)) - set(ind))] *)
Definition remaining_rows (n : nat) (l : seq int) : seq int :=
  sort int_leb [seq i <- pyrange 0 n%:Z | i \notin l].

(** The part of [remove] after the copy-on-write prologue. *)
Definition remove_rows (self n : nat) (ind : Ind) : St unit :=
  A <- read (array_of^~ self) ;;
  match ind with
  | IndNone =>
      a' <- new_ndarray (Ndarray Float64 (shape1 A) [::]) ;;   (* np.zeros((0, dim)) *)
      set_array self a' ;;;
      set_len self 0
  | IndList l =>
      if size l == 0%N then ret tt else
      let remaining := remaining_rows n l in
      a' <- new_ndarray
              (with_rows A (getitem (rows A)
                                    (map (pyindex (shape0 A)) remaining))) ;;
      set_array self a' ;;;
      set_len self (size remaining)
  | IndNum i =>
      assert ((- n%:Z < i) && (i < n%:Z)) ;;;
      let idx := pyrange 0 i ++ pyrange (i + 1) n%:Z in
      a' <- new_ndarray
              (with_rows A (getitem (rows A) (map (pyindex (shape0 A)) idx))) ;;
      set_array self a' ;;;
      set_len self (size idx)
  end.
  (* the arrays built above own their data, so the final
     [if not self._array.flags['OWNDATA']] does nothing *)

Definition remove (self : nat) (ind : Ind) : St unit :=
  n <- read (len^~ self) ;;
  assert (check_ind n ind) ;;;
  cow self ;;;
  remove_rows self n ind.

(** ** [append] *)

(** The part of [append] that copies the rows of [other]. *)
Definition append_rows (self other : nat) : St unit :=
  len_other <- read (len^~ other) ;;
  n <- read (len^~ self) ;;
  A <- read (array_of^~ self) ;;
  O <- read (array_of^~ other) ;;
  (* len_other <= self._array.shape[0] - self._len *)
  (if (len_other%:Z <= (shape0 A)%:Z - n%:Z) then
     when (~~ dtype_eqb (dtype A) (dtype O))
          (astype self (promote_types (dtype A) (dtype O))) ;;;
     update_array self (fun A' =>
       with_rows A' (take n (rows A') ++ take len_other (rows O)
                     ++ drop (n + len_other) (rows A')))
   else
     (* np.vstack((self._array[:self._len], other._array[:len_other])) *)
     a' <- new_ndarray (Ndarray (promote_types (dtype A) (dtype O)) (shape1 A)
                                (take n (rows A) ++ take len_other (rows O))) ;;
     set_array self a') ;;;
  set_len self (n + len_other).

Definition append (self other : nat) (remove_from_other : bool) : St unit :=
  dself <- read (dim^~ self) ;;
  dother <- read (dim^~ other) ;;
  assert (dself == dother) ;;;
  assert ((other != self) || ~~ remove_from_other) ;;;
  cow self ;;;
  when remove_from_other (cow other) ;;;
  append_rows self other ;;;
  when remove_from_other (remove other IndNone).

(** ** [amax] *)

(** [np.argmax] of a row: the position of the first occurrence of the
    maximum. *)
Fixpoint argmax_from (best : nat) (bv : K) (i : nat) (r : seq K) : nat :=
  if r is x :: r' then
    if bv < x then argmax_from i x i.+1 r' else argmax_from best bv i.+1 r'
  else best.

Definition np_argmax (r : seq K) : nat :=
  if r is x :: r' then argmax_from 0 x 1 r' else 0.

Definition amax (self : nat) : St (seq int * seq K) :=
  d <- read (dim^~ self) ;;
  assert (0 < d)%N ;;;
  A <- read (array_of^~ self) ;;
  l <- read (len^~ self) ;;
  if shape1 A == 0%N then
    ret (nseq l (-1), nseq l 0)                (* np.ones(l) * -1, np.zeros(l) *)
  else
    let A' := [seq [seq `|x| | x <- r] | r <- take l (rows A)] in
    let max_ind := [seq np_argmax r | r <- A'] in
    let max_val := [seq nth 0 p.1 p.2 | p <- zip A' max_ind] in
    ret ([seq (i%:Z : int) | i <- max_ind], max_val).

(** * Matrices, operators and [to_matrix] *)

(** ** Matrices of NumPy and SciPy

    A matrix is a NumPy array ([Dense]) or a SciPy sparse matrix in one of
    the seven storage schemes; its entries are a [m x n] matrix over [K]. *)

Inductive sparse_format := bsr | coo | csc | csr | dia | dok | lil.

Inductive storage := Dense | Sparse of sparse_format.

Record mat (m n : nat) := Mat { stor : storage; val : 'M[K]_(m, n) }.

(** [sps.issparse] *)
Definition issparse m n (A : mat m n) : bool :=
  if stor A is Sparse _ then true else false.

(** Which scheme SciPy picks for the transpose, product or sum of sparse
    matrices and for the solution of a sparse system is left open. *)
Variable transpose_scheme : sparse_format -> sparse_format.
Variable product_scheme : sparse_format -> sparse_format -> sparse_format.
Variable sum_scheme : sparse_format -> sparse_format -> sparse_format.
Variable spsolve_scheme : sparse_format -> sparse_format -> sparse_format.

(** [A.T] *)
Definition T m n (A : mat m n) : mat n m :=
  Mat (match stor A with Dense => Dense | Sparse f => Sparse (transpose_scheme f) end)
      (val A)^T.

(** [A.dot(B)]: the matrix product; the result is sparse when both
    operands are. *)
Definition dot m k n (A : mat m k) (B : mat k n) : mat m n :=
  Mat (match stor A, stor B with
       | Sparse f, Sparse g => Sparse (product_scheme f g)
       | _, _ => Dense
       end)
      (val A *m val B).

(** [c * A] and [A + B] *)
Definition smul m n (c : K) (A : mat m n) : mat m n := Mat (stor A) (c *: val A).

Definition madd m n (A B : mat m n) : mat m n :=
  Mat (match stor A, stor B with
       | Sparse f, Sparse g => Sparse (sum_scheme f g)
       | _, _ => Dense
       end)
      (val A + val B).

(** [scipy.linalg.solve(S, B)]: the direct solver for NumPy arrays. It
    rejects a sparse argument with a [ValueError] and a singular [S] with a
    [LinAlgError]; otherwise it returns the array [X] with [S X = B]. *)
Definition spla_solve n m (S : mat n n) (B : mat n m) : result (mat n m) :=
  if issparse S || issparse B then Raise ValueError
  else if val S \in unitmx then Ok (Mat Dense (invmx (val S) *m val B))
  else Raise LinAlgError.

(** [scipy.sparse.linalg.spsolve(S, B)]: the direct solver for a sparse
    [S] (an array is converted to the scheme [csc] first).
    - For a right-hand side of one column, dense or sparse, the solution
      comes back as a one-dimensional array. Systems without unknowns or
      without right-hand sides are not followed either.
    - For a singular [S] the factorization of a system with a sparse
      right-hand side raises a [RuntimeError]; with a dense right-hand side
      the solver warns and returns an array filled with NaN.
    - Otherwise the result is the matrix [X] with [S X = B], sparse when
      [B] is and an array when [B] is. *)
Definition spsla_spsolve n m (S : mat n n) (B : mat n m) : result (mat n m) :=
  if (n == 0)%N || (m <= 1)%N then Raise NoMatrix
  else if val S \in unitmx then
    Ok (Mat (match stor B with
             | Sparse g =>
                 Sparse (spsolve_scheme (if stor S is Sparse f then f else csc) g)
             | Dense => Dense
             end)
            (invmx (val S) *m val B))
  else if issparse B then Raise RuntimeError
  else Raise NoMatrix.

(** [A.toarray()] and re-encoding in a sparse scheme, [A.asformat(f)] or
    [sps.f_matrix(A)]. *)
Definition toarray m n (A : mat m n) : mat m n := Mat Dense (val A).
Definition to_scheme m n (f : sparse_format) (A : mat m n) : mat m n :=
  Mat (Sparse f) (val A).

(** ** Format names *)

Local Open Scope string_scope.

Definition scheme_names : seq (string * sparse_format) :=
  [:: ("bsr", bsr); ("coo", coo); ("csc", csc); ("csr", csr); ("dia", dia);
      ("dok", dok); ("lil", lil)].

Fixpoint lookup_scheme (l : seq (string * sparse_format)) (name : string) :
  option sparse_format :=
  if l is (k, f) :: l' then
    if String.eqb name k then Some f else lookup_scheme l' name
  else None.

(** [getattr(sps, format + '_matrix')]: the class of the scheme named
    [format]; an unknown name has no such attribute. *)
Definition sps_class (format : string) : result sparse_format :=
  if lookup_scheme scheme_names format is Some f then Ok f
  else Raise AttributeError.

(** [format in ('dense', 'bsr', 'coo', 'csc', 'csr', 'dia', 'dok', 'lil')] *)
Definition recognized_formats : seq string :=
  [:: "dense"; "bsr"; "coo"; "csc"; "csr"; "dia"; "dok"; "lil"].

Fixpoint string_in (x : string) (l : seq string) : bool :=
  if l is y :: l' then String.eqb x y || string_in x l' else false.

Definition is_dense_name (format : option string) : bool :=
  if format is Some f then String.eqb f "dense" else false.

(** [format if format else 'csc'] *)
Definition format_or_csc (format : option string) : string :=
  match format with
  | None => "csc"
  | Some f => if String.eqb f "" then "csc" else f
  end.

Local Close Scope string_scope.

(** ** Operators *)

(** Parameters [mu]. *)
Variable Mu : Type.

(** The operators of [pymor.operators] that [ToMatrixRules] handles, except
    block operators; [Operator m n] has range dimension [m] and source
    dimension [n]. A [VectorArrayOperator] refers to an array of a store. *)
Inductive Operator : nat -> nat -> Type :=
  | NumpyMatrixOperator m n (_matrix : mat m n) : Operator m n
  | AdjointOperator m n (operator : Operator m n)
      (range_product : option (Operator m m))
      (source_product : option (Operator n n)) : Operator n m
  | ComponentProjection (components : seq nat) (source_dim : nat) :
      Operator (size components) source_dim
  | Concatenation m k n (second : Operator m k) (first : Operator k n) :
      Operator m n
  | IdentityOperator n : Operator n n
  | LincombOperator m n (operators : seq (Operator m n))
      (coefficients : seq (Mu -> K)) : Operator m n
  | VectorArrayOperator (s : store) (_array : nat) (transposed : bool) :
      Operator (if transposed then len s _array else dim s _array)
               (if transposed then dim s _array else len s _array)
  | ZeroOperator (range_dim source_dim : nat) : Operator range_dim source_dim.

(** [op.assemble(mu)] belongs to the operators, not to [to_matrix]. *)
Variable assemble : forall m n, Operator m n -> Mu -> Operator m n.

(** ** Conversions, with the trace of what is invoked *)

Inductive rule :=
  | rule_NumpyMatrixOperator | rule_AdjointOperator | rule_ComponentProjection
  | rule_Concatenation | rule_IdentityOperator | rule_LincombOperator
  | rule_VectorArrayOperator | rule_ZeroOperator.

Inductive event := Assembled | Invoked of rule.

Definition Tr (A : Type) : Type := (seq event * result A)%type.

Definition tret A (a : A) : Tr A := ([::], Ok a).

Definition tbind A B (c : Tr A) (k : A -> Tr B) : Tr B :=
  match c with
  | (l, Ok a) => let: (l', r) := k a in (l ++ l', r)
  | (l, Raise e) => (l, Raise e)
  end.

Definition emit (e : event) : Tr unit := ([:: e], Ok tt).
Definition lift A (r : result A) : Tr A := ([::], r).
Definition tassert (b : bool) : Tr unit :=
  lift (if b then Ok tt else Raise AssertionError).

Notation "x <~ c ;; k" := (tbind c (fun x => k))
  (at level 100, c at next level, right associativity).
Notation "c ;;~ k" := (tbind c (fun _ => k))
  (at level 100, right associativity).

(** ** The rules of [ToMatrixRules]

    A rule receives the conversions of the children it asks for (the calls
    [self.apply(child, format, mu)]) and runs them in the order of the
    source. *)

Local Open Scope string_scope.

(** [sps.f_matrix(res)] for the class named [format] *)
Definition encode m n (format : string) (res : mat m n) : Tr (mat m n) :=
  cls <~ lift (sps_class format) ;; tret (to_scheme cls res).

(** The tail of several rules:
    [if format is not None and format != 'dense':
       res = getattr(sps, format + '_matrix')(res)] *)
Definition encode_if_sparse m n (format : option string) (res : mat m n) :
  Tr (mat m n) :=
  match format with
  | Some f => if String.eqb f "dense" then tret res else encode f res
  | None => tret res
  end.

Definition action_NumpyMatrixOperator m n (_matrix : mat m n)
    (format : option string) : Tr (mat m n) :=
  emit (Invoked rule_NumpyMatrixOperator) ;;~
  match format with
  | None => tret _matrix
  | Some f =>
      if String.eqb f "dense" then
        if ~~ issparse _matrix then tret _matrix else tret (toarray _matrix)
      else encode f _matrix       (* sps.f_matrix(M) or M.asformat(f) *)
  end.

Definition action_AdjointOperator m n (operator : Tr (mat m n))
    (range_product : option (Tr (mat m m)))
    (source_product : option (Tr (mat n n)))
    (format : option string) : Tr (mat n m) :=
  emit (Invoked rule_AdjointOperator) ;;~
  A <~ operator ;;
  let res := T A in
  res <~ (match range_product with
          | Some c =>
              range_product <~ c ;;
              if (if format is None then true else false)
                 && ~~ issparse res && issparse range_product
              then tret (T (dot (T range_product) (T res)))
              else tret (dot res range_product)
          | None => tret res
          end) ;;
  res <~ (match source_product with
          | Some c =>
              source_product <~ c ;;
              if ~~ issparse source_product
              then lift (spla_solve source_product res)
              else lift (spsla_spsolve source_product res)
          | None => tret res
          end) ;;
  encode_if_sparse format res.

(** The one-hot matrix with a [1] at [(i, components[i])], for components
    below [n]. *)
Definition one_hot (components : seq nat) (n : nat) :
  'M[K]_(size components, n) :=
  \matrix_(i, j) (if nth 0%N components i == j :> nat then 1 else 0).

(** A component that is not below the dimension of the source is out of
    range: the assignment [res[i, j] = 1] to the array raises an
    [IndexError], and the constructor [sps.coo_matrix] refuses the column
    index with a [ValueError]. *)
Definition action_ComponentProjection (components : seq nat) (n : nat)
    (format : option string) : Tr (mat (size components) n) :=
  emit (Invoked rule_ComponentProjection) ;;~
  if is_dense_name format then
    if all (fun j => (j < n)%N) components
    then tret (Mat Dense (one_hot components n))
    else lift (Raise IndexError)
  else
    res <~ lift (if all (fun j => (j < n)%N) components
                 then Ok (Mat (Sparse coo) (one_hot components n))
                 else Raise ValueError) ;;
    encode (format_or_csc format) res.

Definition action_Concatenation m k n (first : Tr (mat k n))
    (second : Tr (mat m k)) (format : option string) : Tr (mat m n) :=
  emit (Invoked rule_Concatenation) ;;~
  first <~ first ;;
  second <~ second ;;
  if (if format is None then true else false)
     && ~~ issparse second && issparse first
  then tret (T (dot (T first) (T second)))
  else tret (dot second first).

Definition action_IdentityOperator (n : nat) (format : option string) :
  Tr (mat n n) :=
  emit (Invoked rule_IdentityOperator) ;;~
  if is_dense_name format then tret (Mat Dense 1%:M)
  else cls <~ lift (sps_class (format_or_csc format)) ;; tret (Mat (Sparse cls) 1%:M).

(** The loop [for i in range(1, len(op.operators))] *)
Fixpoint lincomb_loop m n (res : mat m n) (op_coefficients : seq K)
    (operators : seq (Tr (mat m n))) : Tr (mat m n) :=
  match operators with
  | [::] => tret res
  | c :: operators' =>
      match op_coefficients with
      | [::] => lift (Raise IndexError)
      | a :: coefficients' =>
          M <~ c ;; lincomb_loop (madd res (smul a M)) coefficients' operators'
      end
  end.

Definition action_LincombOperator m n (op_coefficients : seq K)
    (operators : seq (Tr (mat m n))) : Tr (mat m n) :=
  emit (Invoked rule_LincombOperator) ;;~
  match op_coefficients, operators with
  | a :: coefficients', c :: operators' =>
      M <~ c ;; lincomb_loop (smul a M) coefficients' operators'
  | _, _ => lift (Raise IndexError)
  end.

(** [op._array.data] as a matrix *)
Definition data_matrix (s : store) (v : nat) : 'M[K]_(len s v, dim s v) :=
  \matrix_(i, j) nth 0 (nth [::] (data s v) i) j.

Definition action_VectorArrayOperator (s : store) (v : nat) (transposed : bool)
    (format : option string) :
  Tr (mat (if transposed then len s v else dim s v)
          (if transposed then dim s v else len s v)) :=
  emit (Invoked rule_VectorArrayOperator) ;;~
  (if transposed
     return Tr (mat (if transposed then len s v else dim s v)
                    (if transposed then dim s v else len s v))
   then encode_if_sparse format (Mat Dense (data_matrix s v))
   else encode_if_sparse format (T (Mat Dense (data_matrix s v)))).

Definition action_ZeroOperator (range_dim source_dim : nat)
    (format : option string) : Tr (mat range_dim source_dim) :=
  emit (Invoked rule_ZeroOperator) ;;~
  match format with
  | None => tret (Mat (Sparse csc) 0)
  | Some f =>
      if String.eqb f "dense" then tret (Mat Dense 0)
      else cls <~ lift (sps_class f) ;; tret (Mat (Sparse cls) 0)
  end.

Local Close Scope string_scope.

(** Modelled from the spec: [RuleTable.apply] (module
    [pymor.algorithms.rules], not part of the sources at hand): the engine
    matches the variant of the node against the rule registered for it and
    invokes that rule; rules call the engine on children with the same
    format. *)
Fixpoint apply m n (op : Operator m n) (format : option string) (mu : Mu)
    {struct op} : Tr (mat m n) :=
  match op in Operator m n return Tr (mat m n) with
  | NumpyMatrixOperator _ _ M => action_NumpyMatrixOperator M format
  | AdjointOperator _ _ o rp sp =>
      action_AdjointOperator (apply o format mu)
        (if rp is Some p then Some (apply p format mu) else None)
        (if sp is Some p then Some (apply p format mu) else None)
        format
  | ComponentProjection components n =>
      action_ComponentProjection components n format
  | Concatenation _ _ _ second first =>
      action_Concatenation (apply first format mu) (apply second format mu) format
  | IdentityOperator n => action_IdentityOperator n format
  | LincombOperator _ _ operators coefficients =>
      action_LincombOperator
        [seq c mu | c <- coefficients]         (* op.evaluate_coefficients(mu) *)
        ((fix children ops :=
            if ops is o :: ops' then apply o format mu :: children ops'
            else [::]) operators)
  | VectorArrayOperator s v transposed =>
      action_VectorArrayOperator s v transposed format
  | ZeroOperator r s => action_ZeroOperator r s format
  end.

(** ** [to_matrix] *)

Definition to_matrix m n (op : Operator m n) (format : option string) (mu : Mu) :
  Tr (mat m n) :=
  tassert (if format is Some f then string_in f recognized_formats else true) ;;~
  op <~ (emit Assembled ;;~ tret (assemble op mu)) ;;
  apply op format mu.

(** * Properties of the vector arrays *)

(** ** Well-formed references *)

(** The instance [v] exists and its buffer and counter are allocated. *)
Definition obj_ok (s : store) (v : nat) : bool :=
  [&& (v < size (objs s))%N, (_array (obj s v) < size (arrays s))%N
    & (_refcount (obj s v) < size (cells s))%N].

Definition store_ok (s : store) : Prop :=
  forall u, (u < size (objs s))%N -> obj_ok s u.

(** Two instances share a buffer only under the reference counting of
    [copy]: then the counter they see exceeds one. *)
Definition sharing_ok (s : store) : Prop :=
  forall u u', (u < size (objs s))%N -> (u' < size (objs s))%N -> u != u' ->
    _array (obj s u) = _array (obj s u') -> 1 < refcount_of s u.

(** ** Reading the store after an elementary change *)

Section Observations.

Variables (s : store).

Lemma obj_alloc_array A w : obj (alloc_array A s) w = obj s w.
Proof. by []. Qed.
Lemma obj_alloc_cell n w : obj (alloc_cell n s) w = obj s w.
Proof. by []. Qed.
Lemma obj_put_buffer a A w : obj (put_buffer a A s) w = obj s w.
Proof. by []. Qed.
Lemma obj_put_cell c n w : obj (put_cell c n s) w = obj s w.
Proof. by []. Qed.
Lemma obj_put_obj v o w : obj (put_obj v o s) w = if w == v then o else obj s w.
Proof. by rewrite /obj /= nth_set_nth. Qed.
Lemma obj_alloc_obj o w :
  obj (alloc_obj o s) w = if w == size (objs s) then o else obj s w.
Proof.
rewrite /obj /= nth_rcons; case: ltngtP => // lt_w.
by rewrite nth_default // ltnW.
Qed.

Lemma buffer_alloc_array A a :
  buffer (alloc_array A s) a = if a == size (arrays s) then A else buffer s a.
Proof.
rewrite /buffer /= nth_rcons; case: ltngtP => // lt_a.
by rewrite nth_default // ltnW.
Qed.
Lemma buffer_alloc_cell n a : buffer (alloc_cell n s) a = buffer s a.
Proof. by []. Qed.
Lemma buffer_alloc_obj o a : buffer (alloc_obj o s) a = buffer s a.
Proof. by []. Qed.
Lemma buffer_put_buffer a A b :
  buffer (put_buffer a A s) b = if b == a then A else buffer s b.
Proof. by rewrite /buffer /= nth_set_nth. Qed.
Lemma buffer_put_cell c n a : buffer (put_cell c n s) a = buffer s a.
Proof. by []. Qed.
Lemma buffer_put_obj v o a : buffer (put_obj v o s) a = buffer s a.
Proof. by []. Qed.

Lemma cell_alloc_array A c : cell (alloc_array A s) c = cell s c.
Proof. by []. Qed.
Lemma cell_alloc_cell n c :
  cell (alloc_cell n s) c = if c == size (cells s) then n else cell s c.
Proof.
rewrite /cell /= nth_rcons; case: ltngtP => // lt_c.
by rewrite nth_default // ltnW.
Qed.
Lemma cell_alloc_obj o c : cell (alloc_obj o s) c = cell s c.
Proof. by []. Qed.
Lemma cell_put_buffer a A c : cell (put_buffer a A s) c = cell s c.
Proof. by []. Qed.
Lemma cell_put_cell c n d :
  cell (put_cell c n s) d = if d == c then n else cell s d.
Proof. by rewrite /cell /= nth_set_nth. Qed.
Lemma cell_put_obj v o c : cell (put_obj v o s) c = cell s c.
Proof. by []. Qed.

End Observations.

Definition obsE :=
  (obj_alloc_array, obj_alloc_cell, obj_put_buffer, obj_put_cell, obj_put_obj,
   obj_alloc_obj, buffer_alloc_array, buffer_alloc_cell, buffer_alloc_obj,
   buffer_put_buffer, buffer_put_cell, buffer_put_obj, cell_alloc_array,
   cell_alloc_cell, cell_alloc_obj, cell_put_buffer, cell_put_cell,
   cell_put_obj).

Arguments alloc_array : simpl never.
Arguments alloc_cell : simpl never.
Arguments alloc_obj : simpl never.
Arguments put_buffer : simpl never.
Arguments put_cell : simpl never.
Arguments put_obj : simpl never.
Arguments obj : simpl never.
Arguments buffer : simpl never.
Arguments cell : simpl never.

(** ** The steps of the methods as changes of the store *)

(** [self._array = A'] for a newly built array [A']. *)
Definition replaced (h : nat) (A : ndarray) (s : store) : store :=
  put_obj h (mkVA (size (arrays s)) (_len (obj s h)) (_refcount (obj s h)))
    (alloc_array A s).

(** An in-place update [g] of the buffer of [h]. *)
Definition updated (h : nat) (g : ndarray -> ndarray) (s : store) : store :=
  put_buffer (_array (obj s h)) (g (array_of s h)) s.

(** [self._len = n] *)
Definition relen (h n : nat) (s : store) : store :=
  put_obj h (mkVA (_array (obj s h)) n (_refcount (obj s h))) s.

(** The state after [_deep_copy]. *)
Definition deep_copied (h : nat) (s : store) : store :=
  let rc := _refcount (obj s h) in
  put_obj h (mkVA (size (arrays s)) (_len (obj s h)) (size (cells s)))
    (alloc_cell 1 (put_cell rc (cell s rc - 1) (alloc_array (array_of s h) s))).

(** The state after the copy-on-write prologue. *)
Definition cowed (h : nat) (s : store) : store :=
  if 1 < refcount_of s h then deep_copied h s else s.

Lemma bindE A B (c : St A) (k : A -> St B) s a s1 :
  c s = Ok (a, s1) -> bind c k s = k a s1.
Proof. by rewrite /bind => ->. Qed.

Lemma bind_read A B (f : store -> A) (k : A -> St B) s :
  bind (read f) k s = k (f s) s.
Proof. by []. Qed.

Lemma bind_assert B (b : bool) (k : unit -> St B) s :
  bind (assert b) k s = if b then k tt s else Raise AssertionError.
Proof. by rewrite /bind /assert; case: b. Qed.

Lemma bind_ret A B (a : A) (k : A -> St B) s : bind (ret a) k s = k a s.
Proof. by []. Qed.

Lemma bind_alloc_set B h A (k : unit -> St B) s :
  bind (new_ndarray A) (fun a => bind (set_array h a) k) s = k tt (replaced h A s).
Proof. by []. Qed.

Lemma alloc_setE h A s :
  bind (new_ndarray A) (fun a => set_array h a) s = Ok (tt, replaced h A s).
Proof. by []. Qed.

Lemma astypeE h dt s :
  astype h dt s
  = Ok (tt, replaced h (Ndarray dt (shape1 (array_of s h)) (rows (array_of s h))) s).
Proof. by []. Qed.

Lemma update_arrayE h g s : update_array h g s = Ok (tt, updated h g s).
Proof. by []. Qed.

Lemma set_lenE h n s : set_len h n s = Ok (tt, relen h n s).
Proof. by []. Qed.

Lemma deep_copyE h s : obj_ok s h -> _deep_copy h s = Ok (tt, deep_copied h s).
Proof.
case/and3P=> _ _ lt_rc.
rewrite /_deep_copy bind_read bind_alloc_set /replaced !bind_read.
rewrite /bind /write_cell /new_cell /set_refcount /bind /read /write_obj /=.
rewrite !obsE eqxx /= /deep_copied /put_obj /= size_set_nth.
rewrite (maxn_idPr lt_rc) set_set_nth eqxx.
by rewrite /alloc_cell /put_cell /alloc_array /= /cell /obj.
Qed.

Lemma cowE h s : obj_ok s h -> cow h s = Ok (tt, cowed h s).
Proof.
move=> ok_h; rewrite /cow bind_read /when /cowed.
by case: ifP => // _; rewrite deep_copyE.
Qed.

(** What the store holds after each step. *)

Section Steps.

Variables (s : store) (h : nat).

Lemma obj_replaced A w :
  obj (replaced h A s) w
  = if w == h then mkVA (size (arrays s)) (_len (obj s h)) (_refcount (obj s h))
    else obj s w.
Proof. by rewrite /replaced !obsE. Qed.

Lemma buffer_replaced A a :
  buffer (replaced h A s) a = if a == size (arrays s) then A else buffer s a.
Proof. by rewrite /replaced !obsE. Qed.

Lemma cell_replaced A c : cell (replaced h A s) c = cell s c.
Proof. by []. Qed.

Lemma size_arrays_replaced A :
  size (arrays (replaced h A s)) = (size (arrays s)).+1.
Proof. by rewrite /replaced /put_obj /alloc_array /= size_rcons. Qed.

Lemma size_cells_replaced A : size (cells (replaced h A s)) = size (cells s).
Proof. by []. Qed.

Lemma size_objs_replaced A :
  (h < size (objs s))%N -> size (objs (replaced h A s)) = size (objs s).
Proof.
by move=> lt_h; rewrite /replaced /put_obj /= size_set_nth; apply/maxn_idPr.
Qed.

Lemma obj_updated g w : obj (updated h g s) w = obj s w.
Proof. by []. Qed.

Lemma buffer_updated g a :
  buffer (updated h g s) a
  = if a == _array (obj s h) then g (array_of s h) else buffer s a.
Proof. by rewrite /updated !obsE. Qed.

Lemma cell_updated g c : cell (updated h g s) c = cell s c.
Proof. by []. Qed.

Lemma size_arrays_updated g :
  (_array (obj s h) < size (arrays s))%N ->
  size (arrays (updated h g s)) = size (arrays s).
Proof.
by move=> lt_a; rewrite /updated /put_buffer /= size_set_nth; apply/maxn_idPr.
Qed.

Lemma size_cells_updated g : size (cells (updated h g s)) = size (cells s).
Proof. by []. Qed.

Lemma size_objs_updated g : size (objs (updated h g s)) = size (objs s).
Proof. by []. Qed.

Lemma obj_relen n w :
  obj (relen h n s) w
  = if w == h then mkVA (_array (obj s h)) n (_refcount (obj s h)) else obj s w.
Proof. by rewrite /relen !obsE. Qed.

Lemma buffer_relen n a : buffer (relen h n s) a = buffer s a.
Proof. by []. Qed.

Lemma cell_relen n c : cell (relen h n s) c = cell s c.
Proof. by []. Qed.

Lemma size_arrays_relen n : size (arrays (relen h n s)) = size (arrays s).
Proof. by []. Qed.

Lemma size_cells_relen n : size (cells (relen h n s)) = size (cells s).
Proof. by []. Qed.

Lemma size_objs_relen n :
  (h < size (objs s))%N -> size (objs (relen h n s)) = size (objs s).
Proof.
by move=> lt_h; rewrite /relen /put_obj /= size_set_nth; apply/maxn_idPr.
Qed.

Lemma obj_deep_copied w :
  obj (deep_copied h s) w
  = if w == h then mkVA (size (arrays s)) (_len (obj s h)) (size (cells s))
    else obj s w.
Proof. by rewrite /deep_copied !obsE. Qed.

Lemma buffer_deep_copied a :
  buffer (deep_copied h s) a
  = if a == size (arrays s) then array_of s h else buffer s a.
Proof. by rewrite /deep_copied !obsE. Qed.

Lemma cell_deep_copied c :
  (_refcount (obj s h) < size (cells s))%N ->
  cell (deep_copied h s) c
  = if c == size (cells s) then 1
    else if c == _refcount (obj s h) then cell s c - 1 else cell s c.
Proof.
move=> lt_rc; rewrite /deep_copied !obsE /put_cell /alloc_array /=.
rewrite size_set_nth (maxn_idPr lt_rc).
by case: (c == size _) => //; case: eqP => // ->.
Qed.

Lemma size_arrays_deep_copied :
  size (arrays (deep_copied h s)) = (size (arrays s)).+1.
Proof. by rewrite /deep_copied /put_obj /alloc_cell /put_cell /= size_rcons. Qed.

Lemma size_cells_deep_copied :
  (_refcount (obj s h) < size (cells s))%N ->
  size (cells (deep_copied h s)) = (size (cells s)).+1.
Proof.
move=> lt_rc; rewrite /deep_copied /put_obj /alloc_cell /put_cell /= size_rcons.
by rewrite size_set_nth (maxn_idPr lt_rc).
Qed.

Lemma size_objs_deep_copied :
  (h < size (objs s))%N -> size (objs (deep_copied h s)) = size (objs s).
Proof.
by move=> lt_h; rewrite /deep_copied /put_obj /= size_set_nth; apply/maxn_idPr.
Qed.

End Steps.

Definition stepE :=
  (obj_replaced, buffer_replaced, cell_replaced, obj_updated, buffer_updated,
   cell_updated, obj_relen, buffer_relen, cell_relen, obj_deep_copied,
   buffer_deep_copied).

Definition sizeE :=
  (size_arrays_replaced, size_cells_replaced, size_arrays_relen, size_cells_relen,
   size_cells_updated, size_objs_updated, size_arrays_deep_copied).

Arguments replaced : simpl never.
Arguments updated : simpl never.
Arguments relen : simpl never.
Arguments deep_copied : simpl never.

(** ** Steps keep references well-formed *)

Lemma store_ok_replaced s w A :
  store_ok s -> (w < size (objs s))%N -> store_ok (replaced w A s).
Proof.
move=> ok_s lt_w u; rewrite size_objs_replaced // => lt_u.
have /and3P[_ lt_a lt_c] := ok_s u lt_u; have /and3P[_ _ lt_cw] := ok_s w lt_w.
rewrite /obj_ok size_objs_replaced // lt_u size_arrays_replaced obj_replaced /=.
by case: ifP => _ /=; rewrite ltnS ?leqnn ?lt_cw ?lt_c // (ltnW lt_a).
Qed.

Lemma store_ok_relen s w n :
  store_ok s -> (w < size (objs s))%N -> store_ok (relen w n s).
Proof.
move=> ok_s lt_w u; rewrite size_objs_relen // => lt_u.
have /and3P[_ lt_a lt_c] := ok_s u lt_u; have /and3P[_ lt_aw lt_cw] := ok_s w lt_w.
rewrite /obj_ok size_objs_relen // lt_u obj_relen /=.
by case: ifP => _ /=; rewrite ?lt_aw ?lt_cw ?lt_a ?lt_c.
Qed.

Lemma store_ok_updated s w g :
  store_ok s -> (w < size (objs s))%N -> store_ok (updated w g s).
Proof.
move=> ok_s lt_w u lt_u; have /and3P[_ lt_aw _] := ok_s w lt_w.
by rewrite /obj_ok size_arrays_updated //; apply: ok_s.
Qed.

Lemma store_ok_deep_copied s w :
  store_ok s -> (w < size (objs s))%N -> store_ok (deep_copied w s).
Proof.
move=> ok_s lt_w u; rewrite size_objs_deep_copied // => lt_u.
have /and3P[_ lt_a lt_c] := ok_s u lt_u; have /and3P[_ _ lt_cw] := ok_s w lt_w.
rewrite /obj_ok size_objs_deep_copied // lt_u size_arrays_deep_copied.
rewrite size_cells_deep_copied // obj_deep_copied.
by case: ifP => _ /=; rewrite !ltnS ?leqnn // (ltnW lt_a) (ltnW lt_c).
Qed.

Lemma store_ok_cowed s w :
  store_ok s -> (w < size (objs s))%N -> store_ok (cowed w s).
Proof.
by move=> ok_s lt_w; rewrite /cowed; case: ifP => // _; apply: store_ok_deep_copied.
Qed.

Lemma size_objs_cowed s w :
  (w < size (objs s))%N -> size (objs (cowed w s)) = size (objs s).
Proof. by move=> lt_w; rewrite /cowed; case: ifP => // _; rewrite size_objs_deep_copied. Qed.

(** ** What every instance sees after a step *)

Lemma len_replaced s h A w : len (replaced h A s) w = len s w.
Proof. by rewrite /len obj_replaced; case: eqP => // ->. Qed.

Lemma array_of_replaced_self s h A : array_of (replaced h A s) h = A.
Proof. by rewrite /array_of obj_replaced eqxx /= buffer_replaced eqxx. Qed.

Lemma array_of_replaced_other s h A w :
  obj_ok s w -> w != h -> array_of (replaced h A s) w = array_of s w.
Proof.
case/and3P=> _ lt_a _ /negPf ne_wh.
by rewrite /array_of obj_replaced ne_wh buffer_replaced (ltn_eqF lt_a).
Qed.

Lemma len_relen s h n w : len (relen h n s) w = if w == h then n else len s w.
Proof. by rewrite /len obj_relen; case: eqP. Qed.

Lemma array_of_relen s h n w : array_of (relen h n s) w = array_of s w.
Proof. by rewrite /array_of obj_relen; case: eqP => // ->. Qed.

Lemma len_updated s h g w : len (updated h g s) w = len s w.
Proof. by []. Qed.

Lemma array_of_updated s h g w :
  array_of (updated h g s) w
  = if _array (obj s w) == _array (obj s h) then g (array_of s h)
    else array_of s w.
Proof. by rewrite /array_of obj_updated buffer_updated. Qed.

Lemma len_cowed s h w : len (cowed h s) w = len s w.
Proof.
rewrite /cowed; case: ifP => // _.
by rewrite /len obj_deep_copied; case: eqP => // ->.
Qed.

Lemma array_of_cowed s h w : obj_ok s w -> array_of (cowed h s) w = array_of s w.
Proof.
case/and3P=> _ lt_a _; rewrite /cowed; case: ifP => // _.
rewrite /array_of obj_deep_copied; case: (eqVneq w h) => [->|_] /=.
  by rewrite buffer_deep_copied eqxx.
by rewrite buffer_deep_copied (ltn_eqF lt_a).
Qed.

Lemma data_cowed s h w : obj_ok s w -> data (cowed h s) w = data s w.
Proof.
by move=> ok_w; rewrite /data -!/(array_of _ _) array_of_cowed // -!/(len _ _) len_cowed.
Qed.

(** ** Exclusive ownership after the copy-on-write split

    [owns s0 s h]: in [s], reached from [s0], the instance [h] holds a
    buffer and a counter allocated after [s0], the counter is one, no other
    instance refers to either, and the buffers of [s0] are as they were. *)

Record owns (s0 s : store) (h : nat) : Prop := Owns {
  owns_ok : store_ok s;
  owns_valid : (h < size (objs s))%N;
  owns_objs : size (objs s) = size (objs s0);
  owns_array : (size (arrays s0) <= _array (obj s h))%N;
  owns_cell : (size (cells s0) <= _refcount (obj s h))%N;
  owns_count : refcount_of s h = 1;
  owns_old : forall a, (a < size (arrays s0))%N -> buffer s a = buffer s0 a;
  owns_excl : forall u, (u < size (objs s))%N -> u != h ->
    (_array (obj s u) != _array (obj s h))
    && (_refcount (obj s u) != _refcount (obj s h))
}.

Lemma owns_deep_copied s h :
  store_ok s -> (h < size (objs s))%N -> owns s (deep_copied h s) h.
Proof.
move=> ok_s lt_h; have /and3P[_ lt_a lt_c] := ok_s h lt_h.
split; rewrite ?size_objs_deep_copied ?obj_deep_copied ?eqxx //=.
- exact: store_ok_deep_copied.
- by rewrite /refcount_of obj_deep_copied eqxx /= cell_deep_copied // eqxx.
- by move=> a lt_a0; rewrite buffer_deep_copied (ltn_eqF lt_a0).
move=> u lt_u /negPf ne_uh; rewrite !obj_deep_copied ne_uh /=.
by have /and3P[_ lt_au lt_cu] := ok_s u lt_u; rewrite !ltn_eqF.
Qed.






(** ** Steps that succeed and keep an invariant *)

Definition keeps (I : store -> Prop) A (c : St A) : Prop :=
  forall s, I s -> exists a s', c s = Ok (a, s') /\ I s'.

Section Keeps.

Variable I : store -> Prop.

Lemma keeps_ret A (a : A) : keeps I (ret a).
Proof. by move=> s Is; exists a, s. Qed.

Lemma keeps_read A (f : store -> A) : keeps I (read f).
Proof. by move=> s Is; exists (f s), s. Qed.

Lemma keeps_assert (b : bool) : b -> keeps I (assert b).
Proof. by move=> bT s Is; exists tt, s; rewrite /assert bT. Qed.

Lemma keeps_bind A B (c : St A) (k : A -> St B) :
  keeps I c -> (forall a, keeps I (k a)) -> keeps I (bind c k).
Proof.
move=> Hc Hk s /Hc[a [s1 [E1 /(Hk a)[b [s2 [E2 I2]]]]]].
by exists b, s2; rewrite (bindE _ E1).
Qed.

Lemma keeps_when (b : bool) (c : St unit) : keeps I c -> keeps I (when b c).
Proof. by case: b => // _; apply: keeps_ret. Qed.

Lemma keeps_step (t : store -> store) (c : St unit) :
  (forall s, c s = Ok (tt, t s)) -> (forall s, I s -> I (t s)) -> keeps I c.
Proof. by move=> Ec It s Is; exists tt, (t s); split; last apply: It. Qed.

End Keeps.

Lemma keeps_unit (I : store -> Prop) (c : St unit) s :
  keeps I c -> I s -> exists s', c s = Ok (tt, s') /\ I s'.
Proof. by move=> Hc /Hc[[] [s1 R]]; exists s1. Qed.

(** [inv s0 h H s]: [h] owns its buffer, and the instances other than [h]
    and those of [H] are as in [s0]. *)
Definition inv (s0 : store) (h : nat) (H : seq nat) (s : store) : Prop :=
  owns s0 s h /\ forall u, u \notin h :: H -> obj s u = obj s0 u.

Section KeepsInv.

Variables (s0 : store) (h : nat) (H : seq nat) (w : nat).
Hypothesis w_in : w \in h :: H.
Hypothesis w_valid : (w < size (objs s0))%N.

Let I := inv s0 h H.











End KeepsInv.


(** ** The methods after the split keep the ownership *)


Section KeepsMethods.

Variables (s0 : store) (h : nat) (H : seq nat).
Hypothesis h_valid : (h < size (objs s0))%N.

Let I := inv s0 h H.
Let h_in : h \in h :: H := mem_head h H.




Lemma in_range_gt n i : in_range n i -> (- n%:Z < i) && (i < n%:Z).
Proof.
case/andP=> ge0 lt_n; rewrite lt_n andbT.
have gt0 : 0 < n%:Z :> int by apply: le_lt_trans ge0 lt_n.
by apply: lt_le_trans ge0; rewrite oppr_lt0.
Qed.



End KeepsMethods.

(** ** The in-place mutators *)

Inductive mutator :=
  | Scal of Alpha & Ind
  | Axpy of Alpha & nat & Ind
  | Append of nat & bool
  | Remove of Ind.

Definition run (m : mutator) (self : nat) : St unit :=
  match m with
  | Scal alpha ind => scal self alpha ind
  | Axpy alpha x ind => axpy self alpha x ind
  | Append other remove_from_other => append self other remove_from_other
  | Remove ind => remove self ind
  end.

(** The assertions at the head of each mutator. *)
Definition mutator_pre (s : store) (self : nat) (m : mutator) : bool :=
  match m with
  | Scal alpha ind =>
      check_ind_unique (len s self) ind
      && alpha_ok alpha (len_ind (len s self) ind)
  | Axpy alpha x ind => axpy_pre s self alpha x ind
  | Append other remove_from_other =>
      (dim s self == dim s other) && ((other != self) || ~~ remove_from_other)
  | Remove ind => check_ind (len s self) ind
  end.

(** The other instances a call refers to exist. *)
Definition operands_ok (s : store) (m : mutator) : bool :=
  match m with
  | Axpy _ x _ => (x < size (objs s))%N
  | Append other _ => (other < size (objs s))%N
  | _ => true
  end.

(** The instance a call empties on request:
    [append(other, remove_from_other=True)] empties [other]. *)
Definition emptied (m : mutator) : seq nat :=
  if m is Append other true then [:: other] else [::].





(** ** The aliasing copy *)

(** The state after [v.copy()] (no indices, [deep=False]). *)
Definition shallow_copied (v : nat) (s : store) : store :=
  let o := obj s v in
  let c := size (objs s) in
  put_cell (_refcount o) (cell s (_refcount o) + 1)
    (put_obj c (mkVA (_array o) (_len o) (_refcount o))
       (put_obj c (mkVA (_array o) (_len o) (size (cells s)))
          (alloc_obj (mkVA (_array o) (shape0 (array_of s v)) (size (cells s)))
             (alloc_cell 1 s)))).

Lemma copy_shallowE s v :
  obj_ok s v ->
  copy v IndNone false s = Ok (size (objs s), shallow_copied v s).
Proof.
case/and3P=> lt_v lt_a lt_c.
rewrite /copy bind_read bind_assert /= bind_read /= bind_read.
rewrite /init /bind /new_cell /new_obj /set_len /set_refcount /bind /read.
rewrite /write_obj /write_cell /ret /=.
by rewrite !obsE ?eqxx /= ?(ltn_eqF lt_v) /= (ltn_eqF lt_c).
Qed.

Lemma obj_shallow_copied s v u :
  obj (shallow_copied v s) u
  = if u == size (objs s)
    then mkVA (_array (obj s v)) (_len (obj s v)) (_refcount (obj s v))
    else obj s u.
Proof.
rewrite /shallow_copied /obj /put_cell /put_obj /alloc_obj /alloc_cell /=.
rewrite nth_set_nth /= nth_set_nth /= nth_rcons; case: ltngtP => // lt_u.
by rewrite nth_default // ltnW.
Qed.

Lemma buffer_shallow_copied s v a : buffer (shallow_copied v s) a = buffer s a.
Proof. by []. Qed.

Lemma cell_shallow_copied s v c :
  cell (shallow_copied v s) c
  = if c == _refcount (obj s v) then cell s c + 1
    else if c == size (cells s) then 1 else cell s c.
Proof. by rewrite /shallow_copied /= !obsE; case: eqP => // ->. Qed.





(** ** Copy-on-write *)


(** C10. On the fast path of [axpy] for a uniformly zero [alpha], a shared
    buffer is still split before the early return: after [axpy(0, x)] on an
    instance whose counter exceeds one, the instance holds a buffer of its
    own with a counter equal to one, allocated by the call and referred to
    by no other instance; its logical contents are unchanged; and nothing
    else changes, except that the counter it left is decremented. *)
Theorem axpy_zero_splits s self alpha x ind :
  store_ok s -> (self < size (objs s))%N -> axpy_pre s self alpha x ind ->
  np_all_eq alpha 0 -> 1 < refcount_of s self ->
  exists s',
    [/\ axpy self alpha x ind s = Ok (tt, s'),
        [/\ refcount_of s' self = 1,
            (size (arrays s) <= _array (obj s' self))%N
          & forall u, (u < size (objs s'))%N -> u != self ->
              _array (obj s' u) != _array (obj s' self)],
        data s' self = data s self,
        [/\ forall u, u != self -> obj s' u = obj s u,
            forall u, (u < size (objs s))%N -> data s' u = data s u
          & forall a, (a < size (arrays s))%N -> buffer s' a = buffer s a]
      & forall c, (c < size (cells s))%N ->
          cell s' c = if c == _refcount (obj s self) then cell s c - 1
                      else cell s c].
Proof.
move=> ok_s lt_h /and4P[ok1 ok2 ok3 ok4] zero gt1; have ok_h := ok_s _ lt_h.
have /and3P[_ lt_a lt_c] := ok_h.
exists (deep_copied self s).
have own := owns_deep_copied ok_s lt_h.
have data_same u : (u < size (objs s))%N -> data (deep_copied self s) u = data s u.
  by move=> lt_u; rewrite -(data_cowed self (ok_s u lt_u)) /cowed gt1.
split.
- rewrite /axpy bind_read bind_assert ok1 !bind_read bind_assert ok2.
  rewrite bind_read bind_assert ok3 bind_assert ok4 (bindE _ (cowE ok_h)).
  by rewrite /axpy_update zero /cowed gt1.
- split; [exact: owns_count own | exact: owns_array own |].
  by move=> u lt_u ne_u; have /andP[] := owns_excl own lt_u ne_u.
- exact: data_same.
- split=> //; first by move=> u /negPf ne_u; rewrite obj_deep_copied ne_u.
  exact: owns_old own.
by move=> c lt_cc; rewrite cell_deep_copied // ltn_eqF.
Qed.

(** ** [amax] *)

(** [np.argmax] on real numbers: the position of the first maximum. *)
Lemma argmax_fromP (p r : seq K) (best : nat) (bv : K) :
  let l := p ++ r in
  all (fun x => x \is Num.real) l ->
  (best < size p)%N -> bv = nth 0 l best ->
  (forall k, (k < size p)%N -> nth 0 l k <= bv) ->
  (forall k, (k < best)%N -> nth 0 l k < bv) ->
  let j := argmax_from best bv (size p) r in
  [/\ (j < size l)%N, forall k, (k < size l)%N -> nth 0 l k <= nth 0 l j
     & forall k, (k < j)%N -> nth 0 l k < nth 0 l j].
Proof.
elim: r p best bv => [|x r IH] p best bv /=.
  by rewrite cats0 => _ lt_b -> le_p lt_p.
move=> real_l lt_b bv_eq le_p lt_p.
have real_x : x \is Num.real.
  by move: real_l; rewrite all_cat /= => /and3P[].
have real_bv : bv \is Num.real.
  rewrite bv_eq; apply: (allP real_l); apply: mem_nth.
  by rewrite size_cat (leq_trans lt_b) // leq_addr.
have nth_x : nth 0 (p ++ x :: r) (size p) = x by rewrite nth_cat ltnn subnn.
have := IH (rcons p x); rewrite size_rcons cat_rcons => IH'.
case: ifP => [lt_bx|/negbT nlt].
  apply: IH' => //.
  - by move=> k; rewrite ltnS leq_eqVlt => /orP[/eqP ->|/le_p /le_trans ->];
       rewrite ?nth_x // ltW.
  by move=> k /le_p /le_lt_trans; apply.
apply: IH' => //; first exact: ltnW.
move=> k; rewrite ltnS leq_eqVlt => /orP[/eqP ->|/le_p //].
by rewrite nth_x real_leNgt.
Qed.

Lemma np_argmaxP (l : seq K) :
  all (fun x => x \is Num.real) l -> (0 < size l)%N ->
  [/\ (np_argmax l < size l)%N,
      forall k, (k < size l)%N -> nth 0 l k <= nth 0 l (np_argmax l)
    & forall k, (k < np_argmax l)%N -> nth 0 l k < nth 0 l (np_argmax l)].
Proof.
case: l => [|x r] // real_l _.
apply: (@argmax_fromP [:: x] r 0 x) => //.
by case=> //= _; apply: lexx.
Qed.

(** C4 (amended). For an array of positive width, [amax()] returns for each
    row the index and the magnitude of the largest-magnitude entry of the
    row (the first such index); for an array of width zero the assertion
    [self.dim > 0] fails, so the call raises instead of returning the
    sentinel index [-1] and magnitude zero. *)
Theorem amax_spec s v :
  ndarray_wf (array_of s v) ->
  if (0 < dim s v)%N then
    exists max_ind max_val,
      [/\ amax v s = Ok ((max_ind, max_val), s),
          size max_ind = size (data s v), size max_val = size (data s v)
        & forall k, (k < size (data s v))%N ->
            let r := nth [::] (data s v) k in
            exists i : nat,
              [/\ nth 0 max_ind k = i%:Z, (i < dim s v)%N,
                  nth 0 max_val k = `|nth 0 r i|,
                  forall j, (j < dim s v)%N -> `|nth 0 r j| <= `|nth 0 r i|
                & forall j, (j < i)%N -> `|nth 0 r j| < `|nth 0 r i|]]
  else amax v s = Raise AssertionError.
Proof.
move=> wf; case: (posnP (dim s v)) => [eq0|gt0].
  by rewrite /amax bind_read bind_assert eq0.
rewrite /amax bind_read bind_assert gt0.
rewrite !bind_read -/(dim s v) (gtn_eqF gt0) /ret -/(data s v).
set A' := [seq [seq `|x| | x <- r] | r <- data s v].
set max_ind := [seq np_argmax r | r <- A'].
have sz_A' : size A' = size (data s v) by rewrite size_map.
have sz_ind : size max_ind = size (data s v) by rewrite size_map.
do 2!eexists; split; first by [].
- by rewrite size_map.
- by rewrite size_map size_zip sz_A' sz_ind minnn.
move=> k lt_k; set r := nth [::] (data s v) k.
exists (np_argmax [seq `|x| | x <- r]).
have r_in : r \in rows (array_of s v) by apply/mem_take/mem_nth.
have sz_r : size r = dim s v by apply/eqP/(allP wf).
have nth_A' : nth [::] A' k = [seq `|x| | x <- r] by rewrite (nth_map [::]).
have nth_ind : nth 0%N max_ind k = np_argmax [seq `|x| | x <- r].
  by rewrite (nth_map [::]) ?sz_A' // nth_A'.
have real_r : all (fun x : K => x \is Num.real) [seq `|x| | x <- r].
  by apply/allP=> _ /mapP[x _ ->]; apply: normr_real.
have [] := np_argmaxP real_r; rewrite size_map sz_r // => lt_i max_i first_i.
have nth_abs j : (j < dim s v)%N -> nth 0 [seq `|x| | x <- r] j = `|nth 0 r j|.
  by move=> lt_j; rewrite (nth_map 0) ?sz_r.
split=> //.
- by rewrite (nth_map 0%N) ?sz_ind // nth_ind.
- rewrite (nth_map ([::], 0%N)) ?size_zip ?sz_A' ?sz_ind ?minnn //.
  by rewrite nth_zip ?sz_A' //= nth_A' nth_ind nth_abs.
- by move=> j lt_j; rewrite -!nth_abs //; apply: max_i.
move=> j lt_j; have lt_j' := ltn_trans lt_j lt_i.
by rewrite -!nth_abs //; apply: first_i.
Qed.

(** ** [remove] *)

Lemma pyrange_nat (a b : nat) :
  pyrange a%:Z b%:Z = [seq (k%:Z : int) | k <- iota a (b - a)].
Proof.
rewrite /pyrange lez_nat; case: leqP => [le_ab|lt_ba]; last first.
  by rewrite (eqP (ltnW lt_ba : (b - a)%N == 0%N)).
have -> : iota a (b - a) = map (addn a) (iota 0 (b - a)).
  by rewrite -iotaDl addn0.
rewrite subzn // absz_nat -map_comp.
by apply: eq_map => k /=; rewrite PoszD.
Qed.

Lemma pyindex_nat m (k : nat) : pyindex m k%:Z = k.
Proof. by rewrite /pyindex. Qed.

Lemma getitem_nat (r : seq (seq K)) (ks : seq nat) :
  getitem r [seq pyindex (size r) i | i <- [seq (k%:Z : int) | k <- ks]]
  = getitem r ks.
Proof. by rewrite -map_comp /getitem; congr map; apply: map_id_in => k _ /=. Qed.

Lemma int_leb_trans : transitive int_leb.
Proof. by move=> y x z; apply: le_trans. Qed.

Lemma remaining_rowsE n (l : seq int) :
  remaining_rows n l
  = [seq (k%:Z : int) | k <- [seq k <- iota 0 n | (k%:Z : int) \notin l]].
Proof.
rewrite /remaining_rows (pyrange_nat 0) subn0 filter_map.
apply: (sorted_sort int_leb_trans).
rewrite sorted_map; apply: (@sub_sorted _ ltn); first by move=> x y /ltnW.
by apply: sorted_filter (iota_ltn_sorted _ _); apply: ltn_trans.
Qed.

Lemma getitem_filter (r : seq (seq K)) (p : pred nat) n :
  (n <= size r)%N ->
  getitem r [seq k <- iota 0 n | p k] = mask [seq p k | k <- iota 0 n] (take n r).
Proof.
by move=> le_n; rewrite /getitem filter_mask map_mask map_nth_iota0.
Qed.

(** The number of rows that stay. *)
Lemma count_remaining n (l : seq int) :
  all (in_range n) l -> uniq l ->
  size [seq k <- iota 0 n | (k%:Z : int) \notin l] = (n - size l)%N.
Proof.
move=> in_l uniq_l; rewrite size_filter.
have -> : count (fun k => (k%:Z : int) \notin l) (iota 0 n)
          = (n - count (fun k => (k%:Z : int) \in l) (iota 0 n))%N.
  have E := count_predC (fun k => (k%:Z : int) \in l) (iota 0 n).
  by rewrite size_iota in E; rewrite -[X in (X - _)%N]E addKn.
congr (_ - _)%N; rewrite -size_filter -(size_map absz l).
apply/perm_size/uniq_perm.
- exact/filter_uniq/iota_uniq.
- rewrite map_inj_in_uniq // => x y /(allP in_l)/andP[ge0x _].
  move=> /(allP in_l)/andP[ge0y _] eq_abs.
  by rewrite -(gez0_abs ge0x) -(gez0_abs ge0y) eq_abs.
move=> k; rewrite mem_filter mem_iota /= add0n.
apply/andP/mapP => [[k_in lt_k]|[x x_in ->]]; first by exists k%:Z.
have /andP[ge0 lt_x] := allP in_l x x_in.
by rewrite gez0_abs // x_in -ltz_nat gez0_abs.
Qed.

Lemma data_relen_replaced s h n (A : ndarray) :
  data (relen h n (replaced h A s)) h = take n (rows A).
Proof.
rewrite /data -/(array_of _ _) array_of_relen array_of_replaced_self.
by rewrite -/(len _ _) len_relen eqxx.
Qed.

Lemma dim_relen_replaced s h n (A : ndarray) :
  dim (relen h n (replaced h A s)) h = shape1 A.
Proof. by rewrite /dim array_of_relen array_of_replaced_self. Qed.

(** C6. [v.remove(I)] for a list [I] of distinct in-range indices deletes
    exactly the rows indexed by [I] and keeps the other rows in their
    order; the length drops by the number of indices and the width is
    unchanged. The same holds for a single index, and [remove()] without
    indices empties the array and keeps its width. *)
Theorem remove_spec s v :
  store_ok s -> (v < size (objs s))%N -> (len s v <= shape0 (array_of s v))%N ->
  [/\ forall I, all (in_range (len s v)) I -> uniq I ->
        exists s',
          [/\ remove v (IndList I) s = Ok (tt, s'),
              data s' v
              = mask [seq (k%:Z : int) \notin I | k <- iota 0 (len s v)] (data s v),
              len s' v = (len s v - size I)%N
            & dim s' v = dim s v],
      forall i, in_range (len s v) i ->
        exists s',
          [/\ remove v (IndNum i) s = Ok (tt, s'),
              data s' v = take (absz i) (data s v) ++ drop (absz i).+1 (data s v),
              len s' v = (len s v - 1)%N
            & dim s' v = dim s v]
    & exists s',
        [/\ remove v IndNone s = Ok (tt, s'), data s' v = [::], len s' v = 0%N
          & dim s' v = dim s v]].
Proof.
move=> ok_s lt_v cap; have ok_v := ok_s v lt_v.
have A_cow : array_of (cowed v s) v = array_of s v by apply: array_of_cowed.
split=> [I in_I uniq_I|i in_i|].
- rewrite /remove bind_read bind_assert /= in_I (bindE _ (cowE ok_v)).
  rewrite /remove_rows bind_read A_cow.
  case: (posnP (size I)) => [I0|gt0].
    rewrite I0 /=; exists (cowed v s); split=> //.
    + rewrite data_cowed // (size0nil I0) (_ : [seq _ | k <- _] = nseq (len s v) true).
        by apply: (@eq_from_nth _ true);
           rewrite size_map size_iota ?size_nseq // => k lt_k;
           rewrite nth_nseq (nth_map 0%N) ?size_iota // lt_k.
      by rewrite mask_true // /data size_take_min geq_minl.
    + by rewrite len_cowed subn0.
    by rewrite /dim A_cow.
  rewrite bind_alloc_set set_lenE.
  set n := len s v; set A := array_of s v.
  have rem_rows : getitem (rows A) [seq pyindex (shape0 A) j | j <- remaining_rows n I]
                  = mask [seq (k%:Z : int) \notin I | k <- iota 0 n] (data s v).
    by rewrite remaining_rowsE getitem_nat getitem_filter.
  eexists; split; first by [].
  + rewrite data_relen_replaced /= rem_rows -[X in take X _](size_map (pyindex (shape0 A))).
    by rewrite -(size_map (nth [::] (rows A))) -/(getitem _ _) rem_rows take_size.
  + by rewrite len_relen eqxx remaining_rowsE size_map count_remaining.
  by rewrite dim_relen_replaced.
- have /andP[ge0 lt_i] := in_i; have gt_i := in_range_gt in_i.
  rewrite /remove bind_read bind_assert /= in_i (bindE _ (cowE ok_v)).
  rewrite /remove_rows bind_read A_cow bind_assert gt_i bind_alloc_set set_lenE.
  set n := len s v; set A := array_of s v; set k := absz i.
  have i_k : i = k%:Z by rewrite /k gez0_abs.
  have lt_k : (k < n)%N by rewrite -ltz_nat -i_k.
  have idx : pyrange 0 i ++ pyrange (i + 1) n
             = [seq (j%:Z : int) | j <- iota 0 k ++ iota k.+1 (n - k.+1)].
    rewrite i_k (pyrange_nat 0) subn0 map_cat; congr (_ ++ _).
    by rewrite -(pyrange_nat k.+1) -addn1 PoszD.
  have rem_rows : getitem (rows A) [seq pyindex (shape0 A) j
                                      | j <- pyrange 0 i ++ pyrange (i + 1) n]
                  = take k (data s v) ++ drop k.+1 (data s v).
    have le_k : (k <= size (rows A))%N by apply: leq_trans (ltnW lt_k) cap.
    rewrite idx getitem_nat /getitem map_cat map_nth_iota0 //.
    rewrite map_nth_iota ?leq_sub2r // /data take_takel 1?ltnW //.
    by rewrite -/(len s v) -/n take_drop subnK.
  eexists; split; first by [].
  + rewrite data_relen_replaced /= rem_rows take_oversize //.
    by rewrite -rem_rows size_map size_map.
  + rewrite len_relen eqxx idx size_map size_cat !size_iota.
    by rewrite -[X in _ = (X - 1)%N](subnKC lt_k) addSn subn1.
  by rewrite dim_relen_replaced.
rewrite /remove bind_read bind_assert /= (bindE _ (cowE ok_v)).
rewrite /remove_rows bind_read A_cow bind_alloc_set set_lenE.
eexists; split; first by [].
- by rewrite data_relen_replaced.
- by rewrite len_relen eqxx.
by rewrite dim_relen_replaced.
Qed.

(** ** [append] *)

Lemma bind_bind A B C (c : St A) (k : A -> St B) (k' : B -> St C) s :
  bind (bind c k) k' s = bind c (fun a => bind (k a) k') s.
Proof. by rewrite /bind; case: (c s) => [[a s1]|e]. Qed.

(** An instance with a buffer of its own after the prologue. *)
Lemma cowed_unshared s v u :
  store_ok s -> sharing_ok s -> (v < size (objs s))%N -> (u < size (objs s))%N ->
  u != v -> _array (obj (cowed v s) u) != _array (obj (cowed v s) v).
Proof.
move=> ok_s sh lt_v lt_u ne_uv; rewrite /cowed; case: ifP => [_|/negbT le1].
  rewrite !obj_deep_copied (negPf ne_uv) eqxx /=.
  by have /and3P[_ /ltn_eqF -> _] := ok_s u lt_u.
apply: contraNneq le1 => eq_a; apply: (sh v u) => //.
by rewrite eq_sym.
Qed.

(** The rows of [other] are copied behind those of [self]; instances that
    do not share the buffer of [self] are left alone. *)
Lemma append_rows_spec s v w :
  store_ok s -> (v < size (objs s))%N -> (w < size (objs s))%N ->
  (len s v <= shape0 (array_of s v))%N -> (len s w <= shape0 (array_of s w))%N ->
  exists s',
    [/\ append_rows v w s = Ok (tt, s'),
        store_ok s' /\ size (objs s') = size (objs s),
        [/\ len s' v = (len s v + len s w)%N,
            data s' v = data s v ++ data s w & dim s' v = dim s v]
      & forall u, (u < size (objs s))%N -> u != v ->
          _array (obj s u) != _array (obj s v) ->
          obj s' u = obj s u /\ array_of s' u = array_of s u].
Proof.
move=> ok_s lt_v lt_w cap_v cap_w.
rewrite /append_rows !bind_read.
set lo := len s w; set n := len s v; set A := array_of s v; set O := array_of s w.
have sz_data : size (take n (rows A) ++ take lo (rows O)) = (n + lo)%N.
  by rewrite size_cat !size_take_min (minn_idPl cap_v) (minn_idPl cap_w).
have dataE : take n (rows A) ++ take lo (rows O) = data s v ++ data s w by [].
have frame s1 m u :
    store_ok s1 -> (v < size (objs s1))%N -> (u < size (objs s))%N -> u != v ->
    obj s1 u = obj s u -> array_of s1 u = array_of s u ->
    obj (relen v m s1) u = obj s u /\ array_of (relen v m s1) u = array_of s u.
  by move=> ok1 lt1 lt_u /negPf ne E1 E2; rewrite array_of_relen obj_relen ne.
case: ifP => _; last first.
  rewrite bind_bind bind_alloc_set set_lenE; eexists; split; first by [].
  - split; last by rewrite size_objs_relen size_objs_replaced.
    by apply: store_ok_relen; rewrite ?size_objs_replaced //; apply: store_ok_replaced.
  - split; first by rewrite len_relen eqxx.
      by rewrite data_relen_replaced /= -sz_data take_size.
    by rewrite dim_relen_replaced.
  move=> u lt_u ne_u _; apply: frame => //; rewrite ?size_objs_replaced //.
  + exact: store_ok_replaced.
  + by rewrite obj_replaced (negPf ne_u).
  by rewrite array_of_replaced_other //; apply: ok_s.
set g := fun A' : ndarray => _.
rewrite !bind_bind.
case: (~~ dtype_eqb _ _) => /=.
  rewrite (bindE _ (astypeE _ _ _)) -/A (bindE _ (update_arrayE _ _ _)) set_lenE.
  set A1 := Ndarray _ _ _; set s1 := replaced v A1 s.
  have ok1 : store_ok s1 by apply: store_ok_replaced.
  have sz1 : size (objs s1) = size (objs s) by rewrite size_objs_replaced.
  have A1E : array_of (updated v g s1) v = g A1.
    by rewrite array_of_updated eqxx array_of_replaced_self.
  eexists; split; first by [].
  - split; last by rewrite size_objs_relen ?size_objs_updated ?sz1.
    by apply: store_ok_relen; rewrite ?size_objs_updated ?sz1 //;
       apply: store_ok_updated; rewrite ?sz1.
  - split; first by rewrite len_relen eqxx.
      rewrite /data -/(array_of _ _) array_of_relen A1E -/(len _ _) len_relen eqxx /=.
      by rewrite catA take_size_cat.
    by rewrite /dim array_of_relen A1E.
  move=> u lt_u ne_u _; have ok_u := ok_s u lt_u.
  apply: frame; rewrite ?size_objs_updated ?sz1 //.
  + by apply: store_ok_updated; rewrite ?sz1.
  + by rewrite obj_updated obj_replaced (negPf ne_u).
  rewrite array_of_updated !obj_replaced (negPf ne_u) eqxx /=.
  have /and3P[_ /ltn_eqF -> _] := ok_u.
  by rewrite array_of_replaced_other.
rewrite bind_ret (bindE _ (update_arrayE _ _ _)) set_lenE.
have AE : array_of (updated v g s) v = g A by rewrite array_of_updated eqxx.
eexists; split; first by [].
- split; last by rewrite size_objs_relen ?size_objs_updated.
  by apply: store_ok_relen; rewrite ?size_objs_updated //; apply: store_ok_updated.
- split; first by rewrite len_relen eqxx.
    rewrite /data -/(array_of _ _) array_of_relen AE -/(len _ _) len_relen eqxx /=.
    by rewrite catA take_size_cat.
  by rewrite /dim array_of_relen AE.
move=> u lt_u ne_u /negPf ne_a; apply: frame; rewrite ?size_objs_updated //.
- exact: store_ok_updated.
by rewrite array_of_updated ne_a.
Qed.



(** ** [axpy] *)

Lemma scale_row1 (r : seq K) : scale_row r 1 = r.
Proof. by rewrite /scale_row -[RHS]map_id; apply: eq_map => x; rewrite mulr1. Qed.

Lemma size_broadcast k (B : seq (seq K)) : size (broadcast k B) = k.
Proof. by rewrite /broadcast; case: eqP => // _; rewrite size_nseq. Qed.

Lemma broadcast_id k (B : seq (seq K)) : size B = k -> broadcast k B = B.
Proof. by rewrite /broadcast => ->; rewrite eqxx. Qed.

Lemma broadcast_map k (f : seq K -> seq K) (B : seq (seq K)) :
  f [::] = [::] -> broadcast k [seq f r | r <- B] = [seq f r | r <- broadcast k B].
Proof.
move=> f0; rewrite /broadcast size_map; case: ifP => // _.
by rewrite map_nseq; case: B => //=; rewrite f0.
Qed.

(** Scaling row-wise by coefficients that all equal [c]. *)
Lemma map2_scale_const (Y : seq (seq K)) (a : seq K) c :
  size a = size Y -> all (fun x => x == c) a ->
  map2 scale_row Y a = [seq scale_row r c | r <- Y].
Proof.
rewrite /map2; elim: Y a => [|r Y IH] [|x a] //= [sz] /andP[/eqP -> all_c].
by rewrite IH.
Qed.

(** [B * alpha], broadcast against [k] rows, for an [alpha] that is
    uniformly [c]. *)
Lemma broadcast_mul_alpha k (B : seq (seq K)) alpha c :
  np_all_eq alpha c -> alpha_ok alpha k ->
  broadcast k (mul_alpha B alpha) = [seq scale_row r c | r <- broadcast k B].
Proof.
case: alpha => [d a|d a] /=; first by move/eqP=> -> _; apply: broadcast_map.
move=> all_c /eqP sz_a; rewrite /mul_column sz_a.
rewrite (@map2_scale_const _ _ c) ?size_broadcast //.
by rewrite broadcast_id // size_map size_broadcast.
Qed.

Lemma add_rows_mul1 (X B : seq (seq K)) alpha :
  np_all_eq alpha 1 -> alpha_ok alpha (size X) ->
  add_rows X (mul_alpha B alpha) = add_rows X B.
Proof.
move=> all1 ok; rewrite /add_rows (broadcast_mul_alpha _ all1 ok).
by congr map2; rewrite -[RHS]map_id; apply: eq_map => r; rewrite scale_row1.
Qed.

Lemma add_row_scaleN1 (r b : seq K) : add_row r (scale_row b (-1)) = sub_row r b.
Proof.
rewrite /add_row /sub_row /map2 /scale_row.
by elim: r b => [|x r IH] [|y b] //=; rewrite IH mulrN1.
Qed.

Lemma add_rows_mulN1 (X B : seq (seq K)) alpha :
  np_all_eq alpha (-1) -> alpha_ok alpha (size X) ->
  add_rows X (mul_alpha B alpha) = sub_rows X B.
Proof.
move=> allN1 ok; rewrite /add_rows /sub_rows (broadcast_mul_alpha _ allN1 ok).
rewrite /map2; elim: X (broadcast _ B) {ok} => [|r X IH] [|b Y] //=.
by rewrite IH add_row_scaleN1.
Qed.

(** The single-row case: [(B * alpha).reshape((-1,))] against
    [B.reshape((B.shape[1],))]. *)
Lemma flatten_mul_alpha (B : seq (seq K)) alpha c :
  size B = 1%N -> np_all_eq alpha c -> alpha_ok alpha 1 ->
  flatten (mul_alpha B alpha) = scale_row (head [::] B) c.
Proof.
case: B => [|b [|? ?]] //= _; case: alpha => [d a|d a] /=.
  by move/eqP=> -> _; rewrite cats0.
by case: a => [|x [|? ?]] //= /andP[/eqP -> _] _; rewrite /mul_column /map2 /= cats0.
Qed.

(** After the prologue, the branches for [alpha == 1] and [alpha == -1]
    compute what the general branch computes. *)
Lemma axpy_update_refines s1 self n alpha x ind :
  (n <= shape0 (array_of s1 self))%N -> check_ind_unique n ind ->
  (len_ind n ind == size (data s1 x)) || (size (data s1 x) == 1%N) ->
  alpha_ok alpha (len_ind n ind) ->
  axpy_update self n alpha x ind s1 = axpy_update_general self n alpha x ind s1.
Proof.
move=> cap ok_ind ok_x ok_a; rewrite /axpy_update /axpy_update_general.
set ind' := if _ then IndNone else ind.
have len_ind' : len_ind n ind' = len_ind n ind.
  rewrite /ind'; case: ifP => // /and3P[_ /eqP n0 has_l].
  case: ind ok_ind has_l {ok_x ok_a ind'} => //= -[|i l] //=.
  by rewrite n0 /in_range; case: (lerP 0 i) => //= /le_gtF ->.
have num_ind' i : ind' = IndNum i -> ind = IndNum i.
  by rewrite /ind'; case: ifP.
case: ifP => // _; rewrite !bind_read /axpy_promote !bind_bind !bind_read.
set b := (_ || _); set dt := promote_types _ _; set B := data s1 x.
have [s2 [E2 rows2]] : exists s2,
    when b (astype self dt) s1 = Ok (tt, s2)
    /\ rows (array_of s2 self) = rows (array_of s1 self).
  case: b; last by exists s1.
  exists (replaced self (Ndarray dt (shape1 (array_of s1 self))
                                  (rows (array_of s1 self))) s1).
  by rewrite /= astypeE array_of_replaced_self.
rewrite !(bindE _ E2).
have sz_slice : size (take n (rows (array_of s2 self))) = n.
  by rewrite size_take_min rows2 (minn_idPl cap).
have one_row i : ind' = IndNum i -> size B = 1%N /\ alpha_ok alpha 1.
  move/num_ind'=> ind_i; move: ok_x ok_a; rewrite ind_i /= -/B.
  by rewrite eq_sym orbb => /eqP.
have ok_a' : alpha_ok alpha (len_ind n ind') by rewrite len_ind'.
move: ok_a' one_row {len_ind' num_ind'} => ok_a' one_row.
case: ifP => [all1|_]; last case: ifP => [allN1|//].
- rewrite /axpy_add /axpy_general; move: ok_a' one_row.
  case: ind' => [|i|l] /= ok_a' one_row;
    rewrite !update_arrayE /updated; congr (Ok (_, put_buffer _ _ _)).
  + by rewrite /on_slice add_rows_mul1 // sz_slice.
  + have [sz_B ok1] := one_row i erefl.
    by rewrite /on_row (flatten_mul_alpha sz_B all1 ok1) scale_row1.
  by rewrite /on_index add_rows_mul1 // size_map size_map.
rewrite /axpy_sub /axpy_general; move: ok_a' one_row.
case: ind' => [|i|l] /= ok_a' one_row;
  rewrite !update_arrayE /updated; congr (Ok (_, put_buffer _ _ _)).
- by rewrite /on_slice add_rows_mulN1 // sz_slice.
- have [sz_B ok1] := one_row i erefl.
  by rewrite /on_row (flatten_mul_alpha sz_B allN1 ok1) add_row_scaleN1.
by rewrite /on_index add_rows_mulN1 // size_map size_map.
Qed.

Lemma axpy_update_total s1 self n alpha x ind :
  exists s', axpy_update self n alpha x ind s1 = Ok (tt, s').
Proof.
rewrite /axpy_update; set ind' := if _ then IndNone else ind.
case: ifP => _; first by exists s1.
rewrite !bind_read /axpy_promote !bind_bind !bind_read.
set b := (_ || _); set dt := promote_types _ _.
have [s2 E2] : exists s2, when b (astype self dt) s1 = Ok (tt, s2).
  by case: b; eexists.
rewrite (bindE _ E2) /axpy_add /axpy_sub /axpy_general.
by case: ifP => _; [|case: ifP => _]; case: ind' => [|i|l];
   rewrite update_arrayE; eexists.
Qed.

(** C7. For a compatible operand [x], [axpy] with [alpha == 1] (addition
    branch) and with [alpha == -1] (subtraction branch) ends in the state
    that the general multiply-and-add [v[i] += alpha * x[i]] ends in; the
    call succeeds; and [axpy] with a uniformly zero [alpha] leaves the
    logical contents of every array unchanged. *)
Theorem axpy_fast_paths s self alpha x ind :
  store_ok s -> (self < size (objs s))%N -> (x < size (objs s))%N ->
  (len s self <= shape0 (array_of s self))%N ->
  (len s x <= shape0 (array_of s x))%N ->
  axpy_pre s self alpha x ind ->
  [/\ exists s', axpy self alpha x ind s = Ok (tt, s'),
      np_all_eq alpha 1 ->
        axpy self alpha x ind s = axpy_multiply_add self alpha x ind s,
      np_all_eq alpha (-1) ->
        axpy self alpha x ind s = axpy_multiply_add self alpha x ind s
    & np_all_eq alpha 0 ->
        exists s', axpy self alpha x ind s = Ok (tt, s')
                   /\ forall u, (u < size (objs s))%N -> data s' u = data s u].
Proof.
move=> ok_s lt_h lt_x cap_h cap_x /and4P[ok1 ok2 ok3 ok4].
have ok_h := ok_s _ lt_h; have ok_x := ok_s _ lt_x.
have E : forall k, axpy_update self (len s self) alpha x ind (cowed self s) = k ->
         axpy self alpha x ind s = k.
  move=> k <-; rewrite /axpy bind_read bind_assert ok1 !bind_read bind_assert ok2.
  by rewrite bind_read bind_assert ok3 bind_assert ok4 (bindE _ (cowE ok_h)).
have E' : axpy_multiply_add self alpha x ind s
          = axpy_update_general self (len s self) alpha x ind (cowed self s).
  rewrite /axpy_multiply_add bind_read bind_assert ok1 !bind_read bind_assert ok2.
  by rewrite bind_read bind_assert ok3 bind_assert ok4 (bindE _ (cowE ok_h)).
have refines : axpy self alpha x ind s = axpy_multiply_add self alpha x ind s.
  rewrite E' (E _ erefl); apply: axpy_update_refines => //.
    by rewrite array_of_cowed.
  by rewrite data_cowed // /data size_take_min (minn_idPl cap_x).
split=> // [|zero].
  by have [s' Es] := axpy_update_total (cowed self s) self (len s self) alpha x ind;
     exists s'; apply: E.
exists (cowed self s); split; first by apply: E; rewrite /axpy_update zero.
by move=> u lt_u; apply: data_cowed; apply: ok_s.
Qed.

(** * Properties of [to_matrix] *)

(** The check at the head of [to_matrix]:
    [format is None or format in ('dense', 'bsr', ...)]. *)
Definition format_ok (format : option string) : bool :=
  if format is Some f then string_in f recognized_formats else true.

(** The rule registered for a node. *)
Definition rule_of m n (op : Operator m n) : rule :=
  match op with
  | NumpyMatrixOperator _ _ _ => rule_NumpyMatrixOperator
  | AdjointOperator _ _ _ _ _ => rule_AdjointOperator
  | ComponentProjection _ _ => rule_ComponentProjection
  | Concatenation _ _ _ _ _ => rule_Concatenation
  | IdentityOperator _ => rule_IdentityOperator
  | LincombOperator _ _ _ _ => rule_LincombOperator
  | VectorArrayOperator _ _ _ => rule_VectorArrayOperator
  | ZeroOperator _ _ => rule_ZeroOperator
  end.

Lemma tbind_emit A e (k : unit -> Tr A) :
  tbind (emit e) k = (e :: (k tt).1, (k tt).2).
Proof. by rewrite /tbind /emit; case: (k tt). Qed.

Lemma tbind_ok A B l (a : A) (k : A -> Tr B) :
  tbind (l, Ok a) k = (l ++ (k a).1, (k a).2).
Proof. by rewrite /tbind; case: (k a). Qed.

Lemma tbind_tret A B (a : A) (k : A -> Tr B) : tbind (tret a) k = k a.
Proof. by rewrite /tbind /tret; case: (k a). Qed.

(** Every conversion starts by invoking the rule of the node. *)
Lemma apply_invokes m n (op : Operator m n) format mu :
  exists tr, (apply op format mu).1 = Invoked (rule_of op) :: tr.
Proof.
case: op => [m' n' M|m' n' o rp sp|cs n'|m' k n' o2 o1|n'|m' n' os cs|s v t|r c] /=.
- by rewrite /action_NumpyMatrixOperator tbind_emit; eexists.
- by rewrite /action_AdjointOperator tbind_emit; eexists.
- by rewrite /action_ComponentProjection tbind_emit; eexists.
- by rewrite /action_Concatenation tbind_emit; eexists.
- by rewrite /action_IdentityOperator tbind_emit; eexists.
- by rewrite /action_LincombOperator tbind_emit; eexists.
- by rewrite /action_VectorArrayOperator tbind_emit; eexists.
by rewrite /action_ZeroOperator tbind_emit; eexists.
Qed.

Lemma to_matrixE m n (op : Operator m n) format mu :
  format_ok format ->
  to_matrix op format mu
  = (Assembled :: (apply (assemble op mu) format mu).1,
     (apply (assemble op mu) format mu).2).
Proof.
rewrite /to_matrix /format_ok => ->.
by rewrite /tbind /tassert /lift /emit /tret /=; case: (apply _ _ _).
Qed.

(** C9. For every operator and every format string outside the recognized
    set, [to_matrix] fails on its first statement: the trace of the call
    is empty, so the operator is not assembled and no rule is invoked. (For
    a recognized format, and for [None], the call assembles the operator
    and invokes the rule of the assembled node.) The failure is that of an
    [assert]; the specification calls it [InvalidFormatError]. *)
Theorem to_matrix_format_check m n (op : Operator m n) format mu :
  if format_ok format then
    exists tr r,
      to_matrix op format mu
      = (Assembled :: Invoked (rule_of (assemble op mu)) :: tr, r)
  else to_matrix op format mu = ([::], Raise AssertionError).
Proof.
case: ifP => [ok|]; last first.
  by rewrite /to_matrix /format_ok /tassert /lift /tbind => ->.
have [tr E] := apply_invokes (assemble op mu) format mu.
by rewrite to_matrixE // E; do 2!eexists.
Qed.

(** ** What a conversion returns *)

Lemma tbind_snd A B (c : Tr A) (k : A -> Tr B) a :
  c.2 = Ok a -> (tbind c k).2 = (k a).2.
Proof. by case: c => l r /= ->; rewrite /tbind; case: (k a). Qed.

Lemma to_matrix_snd m n (op : Operator m n) format mu :
  format_ok format ->
  (to_matrix op format mu).2 = (apply (assemble op mu) format mu).2.
Proof. by move=> ok; rewrite to_matrixE. Qed.

Local Open Scope string_scope.

(** The names of the sparse schemes are recognized formats, and none of
    them is ["dense"]. *)
Lemma lookup_scheme_recognized f cls :
  lookup_scheme scheme_names f = Some cls ->
  string_in f recognized_formats /\ String.eqb f "dense" = false.
Proof.
rewrite /scheme_names /recognized_formats /=.
do 7![case: String.eqb_spec => [-> _|_]; first by split].
by [].
Qed.

Lemma encode_snd m n f cls (res : mat m n) :
  lookup_scheme scheme_names f = Some cls ->
  (encode f res).2 = Ok (to_scheme cls res).
Proof. by move=> E; rewrite /encode /sps_class E. Qed.

(** Re-encoding for a recognized format succeeds and keeps the entries. *)
Lemma encode_if_sparse_val m n format (res : mat m n) :
  format_ok format ->
  exists2 M, (encode_if_sparse format res).2 = Ok M & val M = val res.
Proof.
case: format => [f|] /=; last by exists res.
case E: (String.eqb f "dense"); first by exists res.
rewrite /encode /sps_class /scheme_names /=.
do 7![case: (String.eqb f _) => /=; first by eexists].
by [].
Qed.

Local Close Scope string_scope.

(** C8. For an operator that assembles to a [ZeroOperator] of range
    dimension [r] and source dimension [s], [to_matrix] returns an [r x s]
    matrix whose entries are all zero: a sparse matrix in the scheme [csc]
    when [format] is [None], a dense matrix when it is ['dense'], and a
    sparse matrix in the named scheme otherwise. *)
Theorem to_matrix_ZeroOperator r s (op : Operator r s) mu :
  assemble op mu = ZeroOperator r s ->
  [/\ exists M, [/\ (to_matrix op None mu).2 = Ok M, stor M = Sparse csc
                   & forall i j, val M i j = 0],
      exists M, [/\ (to_matrix op (Some "dense"%string) mu).2 = Ok M,
                    stor M = Dense
                  & forall i j, val M i j = 0]
    & forall f cls, lookup_scheme scheme_names f = Some cls ->
      exists M, [/\ (to_matrix op (Some f) mu).2 = Ok M, stor M = Sparse cls
                  & forall i j, val M i j = 0]].
Proof.
move=> asm; split.
- exists (Mat (Sparse csc) 0); split=> // [|i j]; last by rewrite /= mxE.
  by rewrite to_matrix_snd // asm.
- exists (Mat Dense 0); split=> // [|i j]; last by rewrite /= mxE.
  by rewrite to_matrix_snd // asm.
move=> f cls E; have [ok not_dense] := lookup_scheme_recognized E.
exists (Mat (Sparse cls) 0); split=> // [|i j]; last by rewrite /= mxE.
rewrite to_matrix_snd // asm /= /action_ZeroOperator.
by rewrite (tbind_snd _ (a := tt)) // not_dense /sps_class E.
Qed.

(** C3. For an operator that assembles to a [Concatenation] of [second]
    after [first], whose children convert to the matrices [A] (second) and
    [B] (first), [to_matrix] returns a matrix with the entries of [A * B].
    The branch taken when no format is pinned, [first] is sparse and
    [second] is dense computes [first.T.dot(second.T).T], which has the
    entries of [second.dot(first)] for all operands, and is the same dense
    matrix in that branch. *)
Theorem to_matrix_Concatenation m k n (op : Operator m n)
    (second : Operator m k) (first : Operator k n) format mu (A : mat m k)
    (B : mat k n) :
  format_ok format -> assemble op mu = Concatenation second first ->
  (apply first format mu).2 = Ok B -> (apply second format mu).2 = Ok A ->
  [/\ exists2 M, (to_matrix op format mu).2 = Ok M & val M = val A *m val B,
      val (T (dot (T B) (T A))) = val (dot A B)
    & issparse B -> ~~ issparse A -> T (dot (T B) (T A)) = dot A B].
Proof.
move=> ok asm E1 E2.
have trick : val (T (dot (T B) (T A))) = val (dot A B).
  by rewrite /= trmx_mul !trmxK.
split=> //; last first.
  case: A B {trick E1 E2} => [[|f] a] [[|g] b] //= _ _.
  by rewrite /T /dot /= trmx_mul !trmxK.
rewrite to_matrix_snd // asm /= /action_Concatenation.
rewrite (tbind_snd _ (a := tt)) // (tbind_snd _ E1) (tbind_snd _ E2).
by case: ifP => _; [exists (T (dot (T B) (T A))) | exists (dot A B)].
Qed.

(** The product with the range inner product, in either branch. *)
Lemma range_product_val m n (res : mat n m) (R : mat m m) (b : bool) :
  val (if b then T (dot (T R) (T res)) else dot res R) = val res *m val R.
Proof. by case: b; rewrite /= ?trmx_mul ?trmxK. Qed.





(** * Further properties of the conversions *)

(** ** Induction on operators

    Operators nest through the optional products of an [AdjointOperator]
    and through the list of a [LincombOperator]. *)

Section OperatorInduction.

Variable P : forall m n, Operator m n -> Prop.

Definition for_product m n (p : option (Operator m n)) : Prop :=
  if p is Some o then P o else True.

Fixpoint for_operators m n (ops : seq (Operator m n)) : Prop :=
  if ops is o :: ops' then P o /\ for_operators ops' else True.

Hypothesis case_NumpyMatrixOperator :
  forall m n (M : mat m n), P (NumpyMatrixOperator M).
Hypothesis case_AdjointOperator :
  forall m n (o : Operator m n) rp sp,
    P o -> for_product rp -> for_product sp -> P (AdjointOperator o rp sp).
Hypothesis case_ComponentProjection :
  forall components n, P (ComponentProjection components n).
Hypothesis case_Concatenation :
  forall m k n (second : Operator m k) (first : Operator k n),
    P second -> P first -> P (Concatenation second first).
Hypothesis case_IdentityOperator : forall n, P (IdentityOperator n).
Hypothesis case_LincombOperator :
  forall m n (ops : seq (Operator m n)) cs,
    for_operators ops -> P (LincombOperator ops cs).
Hypothesis case_VectorArrayOperator :
  forall s v t, P (VectorArrayOperator s v t).
Hypothesis case_ZeroOperator : forall r s, P (ZeroOperator r s).

Fixpoint Operator_induction m n (op : Operator m n) {struct op} : P op :=
  match op as o in Operator m' n' return P o with
  | NumpyMatrixOperator _ _ M => case_NumpyMatrixOperator M
  | AdjointOperator _ _ o rp sp =>
      case_AdjointOperator (Operator_induction o)
        (match rp return for_product rp with
         | Some p => Operator_induction p
         | None => I
         end)
        (match sp return for_product sp with
         | Some p => Operator_induction p
         | None => I
         end)
  | ComponentProjection components n => case_ComponentProjection components n
  | Concatenation _ _ _ second first =>
      case_Concatenation (Operator_induction second) (Operator_induction first)
  | IdentityOperator n => case_IdentityOperator n
  | LincombOperator _ _ ops cs =>
      case_LincombOperator cs
        ((fix all ops : for_operators ops :=
            match ops return for_operators ops with
            | [::] => I
            | o :: ops' => conj (Operator_induction o) (all ops')
            end) ops)
  | VectorArrayOperator s v t => case_VectorArrayOperator s v t
  | ZeroOperator r s => case_ZeroOperator r s
  end.

End OperatorInduction.

(** The conversion of a linear combination, with the conversions of the
    children as a list. *)
Lemma apply_LincombOperator m n (ops : seq (Operator m n)) cs format mu :
  apply (LincombOperator ops cs) format mu
  = action_LincombOperator [seq c mu | c <- cs]
      [seq apply o format mu | o <- ops].
Proof.
by [].
Qed.

(** ** The entries of a conversion *)

(** What a conversion returns, up to the storage of the matrix. *)
Definition entries m n (c : Tr (mat m n)) : result 'M[K]_(m, n) :=
  match c.2 with Ok M => Ok (val M) | Raise e => Raise e end.

Lemma entries_emit m n e (c : Tr (mat m n)) : entries (emit e ;;~ c) = entries c.
Proof. by rewrite /entries tbind_emit. Qed.

Lemma entries_encode_if_sparse m n format (res : mat m n) :
  format_ok format -> entries (encode_if_sparse format res) = Ok (val res).
Proof.
by move=> ok; have [M E v] := encode_if_sparse_val res ok; rewrite /entries E v.
Qed.

(** Whichever solver runs, a matrix it returns is the solution. *)
Lemma solve_Ok n m (S : mat n n) (res M : mat n m) (b : bool) :
  (if b then lift (spla_solve S res) else lift (spsla_spsolve S res)).2 = Ok M ->
  val M = invmx (val S) *m val res.
Proof.
case: b; rewrite /lift /spla_solve /spsla_spsolve /=.
  by do 2![case: ifP => // _]; case=> <-.
by do 2![case: ifP => // _]; [case=> <-|case: ifP].
Qed.

Lemma entries_to_matrix m n (op : Operator m n) format mu :
  format_ok format ->
  entries (to_matrix op format mu) = entries (apply (assemble op mu) format mu).
Proof. by move=> ok; rewrite /entries to_matrix_snd. Qed.

Local Open Scope string_scope.

(** For a recognized format other than ['dense'], and for [None], the
    scheme named by [format if format else 'csc'] exists. *)
Lemma format_or_csc_class format :
  format_ok format -> ~~ is_dense_name format ->
  exists2 cls, sps_class (format_or_csc format) = Ok cls
             & lookup_scheme scheme_names (format_or_csc format) = Some cls.
Proof.
case: format => [f|] /=; last by exists csc.
rewrite /sps_class /scheme_names /recognized_formats /=.
do 9![case: (String.eqb_spec f _) => [->|_] //=; try by move=> *; eexists].
Qed.

Lemma pinned_class f :
  format_ok (Some f) -> String.eqb f "dense" = false ->
  exists cls, lookup_scheme scheme_names f = Some cls.
Proof.
rewrite /format_ok /scheme_names /recognized_formats /=.
do 8![case: (String.eqb f _) => //=; try by move=> *; eexists].
Qed.

Lemma encode_Ok m n f (res M : mat m n) :
  (encode f res).2 = Ok M -> issparse M /\ val M = val res.
Proof.
by rewrite /encode /sps_class; case: (lookup_scheme _ _) => [cls|] //= [<-].
Qed.

Local Close Scope string_scope.

Lemma dot_trick_val m k n (A : mat m k) (B : mat k n) (b : bool) :
  val (if b then T (dot (T B) (T A)) else dot A B) = val A *m val B.
Proof. by case: b; rewrite /= ?trmx_mul ?trmxK. Qed.

Lemma entries_NumpyMatrixOperator m n (M : mat m n) format :
  format_ok format -> entries (action_NumpyMatrixOperator M format) = Ok (val M).
Proof.
move=> ok; rewrite /action_NumpyMatrixOperator entries_emit.
have := entries_encode_if_sparse M ok.
case: format {ok} => [f|] //=.
by case: (String.eqb f _) => //; case: ifP.
Qed.

Lemma entries_ComponentProjection components n format :
  format_ok format ->
  entries (action_ComponentProjection components n format)
  = if all (fun j => (j < n)%N) components then Ok (one_hot components n)
    else Raise (if is_dense_name format then IndexError else ValueError).
Proof.
move=> ok; rewrite /action_ComponentProjection entries_emit.
case: ifPn => not_dense; case: ifP => // _.
have [cls E _] := format_or_csc_class ok not_dense.
by rewrite /entries /encode E.
Qed.

Lemma entries_IdentityOperator n format :
  format_ok format -> entries (action_IdentityOperator n format) = Ok 1%:M.
Proof.
move=> ok; rewrite /action_IdentityOperator entries_emit.
case: ifPn => // not_dense.
have [cls E _] := format_or_csc_class ok not_dense.
by rewrite /entries E.
Qed.

Lemma entries_ZeroOperator r c format :
  format_ok format -> entries (action_ZeroOperator r c format) = Ok 0.
Proof.
move=> ok; rewrite /action_ZeroOperator entries_emit.
case: format ok => [f|] //= ok.
case E: (String.eqb f _) => //.
have [cls Ecls] := pinned_class ok E.
by rewrite /entries /sps_class Ecls.
Qed.

(** ** The format decides the storage only *)

(** Two conversions agree when the matrices they return, if each returns
    one, have the same entries. *)
Definition agree m n (c c' : Tr (mat m n)) : Prop :=
  forall M M', c.2 = Ok M -> c'.2 = Ok M' -> val M = val M'.

Lemma tbind_Ok A B (c : Tr A) (k : A -> Tr B) b :
  (tbind c k).2 = Ok b -> exists2 a, c.2 = Ok a & (k a).2 = Ok b.
Proof.
case: c => l [a|e] //=; rewrite /tbind; case E: (k a) => [l' r] /= Er.
by exists a; rewrite ?E.
Qed.

Lemma agree_entries m n (c c' : Tr (mat m n)) :
  entries c = entries c' -> agree c c'.
Proof.
by rewrite /entries => E M M' EM EM'; move: E; rewrite EM EM' => -[].
Qed.

Lemma agree_emit m n e e' (c c' : Tr (mat m n)) :
  agree c c' -> agree (emit e ;;~ c) (emit e' ;;~ c').
Proof. by move=> H M M'; rewrite !tbind_emit; apply: H. Qed.

Lemma agree_tret m n (M M' : mat m n) :
  val M = val M' -> agree (tret M) (tret M').
Proof. by move=> eqv M1 M1' [<-] [<-]. Qed.

Lemma agree_tbind m n p q (c c' : Tr (mat m n))
    (k k' : mat m n -> Tr (mat p q)) :
  agree c c' ->
  (forall M M', val M = val M' -> agree (k M) (k' M')) ->
  agree (tbind c k) (tbind c' k').
Proof.
move=> Hc Hk M M' E E'.
have [a Ea Ek] := tbind_Ok E; have [a' Ea' Ek'] := tbind_Ok E'.
exact: Hk (Hc _ _ Ea Ea') _ _ Ek Ek'.
Qed.

Lemma agree_encode_if_sparse m n format format' (res res' : mat m n) :
  format_ok format -> format_ok format' -> val res = val res' ->
  agree (encode_if_sparse format res) (encode_if_sparse format' res').
Proof.
by move=> ok ok' eqv; apply: agree_entries; rewrite !entries_encode_if_sparse ?eqv.
Qed.

Lemma lincomb_loop_agree m n format format' mu (ops : seq (Operator m n)) :
  for_operators
    (fun m n (op : Operator m n) =>
       agree (apply op format mu) (apply op format' mu)) ops ->
  forall (res res' : mat m n) cs, val res = val res' ->
    agree (lincomb_loop res cs [seq apply o format mu | o <- ops])
          (lincomb_loop res' cs [seq apply o format' mu | o <- ops]).
Proof.
elim: ops => [_ res res' cs eqv|o ops IH /= [IHo IHops] res res' [|a cs] eqv] //.
  by case: cs => [|a cs]; apply: agree_tret.
apply: agree_tbind IHo _ => M M' eqM.
by apply: IH => //=; rewrite eqv eqM.
Qed.

(** The matrices the rules return have the same entries whatever the
    format is. *)
Lemma apply_agree m n (op : Operator m n) format format' mu :
  format_ok format -> format_ok format' ->
  agree (apply op format mu) (apply op format' mu).
Proof.
move=> ok ok'; move: m n op.
apply: Operator_induction
  => [m n M|m n o rp sp IHo IHrp IHsp|cs n|m k n o2 o1 IH2 IH1|n
     |m n ops cs IHops|s v t|r c].
- by apply: agree_entries; rewrite /= !entries_NumpyMatrixOperator.
- rewrite /= /action_AdjointOperator; apply: agree_emit.
  apply: agree_tbind IHo _ => A A' eqA.
  apply: agree_tbind => [|res res' eq_res].
    case: rp IHrp => [p|] /= IHp; last by apply: agree_tret; rewrite /= eqA.
    apply: agree_tbind IHp _ => R R' eqR.
    by rewrite -!fun_if; apply: agree_tret; rewrite !range_product_val /= eqA eqR.
  apply: agree_tbind => [|M M' eqM]; last exact: agree_encode_if_sparse.
  case: sp IHsp => [p|] /= IHp; last exact: agree_tret.
  apply: agree_tbind IHp _ => S S' eqS M M' /solve_Ok -> /solve_Ok ->.
  by rewrite eqS eq_res.
- move=> M M'; rewrite /= => E E'.
  have := entries_ComponentProjection cs n ok.
  have := entries_ComponentProjection cs n ok'.
  by rewrite /entries E E'; case: ifP => // _ [->] [->].
- rewrite /= /action_Concatenation; apply: agree_emit.
  apply: agree_tbind IH1 _ => B B' eqB.
  apply: agree_tbind IH2 _ => A A' eqA.
  by rewrite -!fun_if; apply: agree_tret; rewrite !dot_trick_val eqA eqB.
- by apply: agree_entries; rewrite /= !entries_IdentityOperator.
- rewrite !apply_LincombOperator /action_LincombOperator; apply: agree_emit.
  case: [seq c mu | c <- cs] => [|a cs'] //.
  case: ops IHops => [|o ops] //= [IHo IHops].
  apply: agree_tbind IHo _ => M M' eqM.
  by apply: lincomb_loop_agree => //=; rewrite eqM.
- rewrite /= /action_VectorArrayOperator; apply: agree_emit.
  by case: t; apply: agree_encode_if_sparse.
by apply: agree_entries; rewrite /= !entries_ZeroOperator.
Qed.

(** A conversion that returns was given an admissible format. *)
Lemma to_matrix_Ok_format m n (op : Operator m n) format mu M :
  (to_matrix op format mu).2 = Ok M -> format_ok format.
Proof.
case ok: (format_ok format) => //.
by move: ok; rewrite /to_matrix /format_ok /tassert /lift /tbind => ->.
Qed.

(** X1. The format decides the storage only. For every operator built
    from the variants above (no block operators) and any two formats:
    whenever each of the two calls of [to_matrix] returns a matrix, the
    two matrices have the same entries. (Calls that fail, or in which a
    solver hands back a one-dimensional array or an array of NaN, return
    no matrix to compare; which of these happens may depend on the
    format.) *)
Theorem to_matrix_entries_any_format m n (op : Operator m n) format format' mu
    (M M' : mat m n) :
  (to_matrix op format mu).2 = Ok M -> (to_matrix op format' mu).2 = Ok M' ->
  val M = val M'.
Proof.
move=> E E'.
have ok := to_matrix_Ok_format E; have ok' := to_matrix_Ok_format E'.
by move: E E'; rewrite !to_matrix_snd //; apply: apply_agree.
Qed.

(** ** A pinned format decides the storage *)

Lemma stor_dot_dense m k n (A : mat m k) (B : mat k n) :
  stor A = Dense \/ stor B = Dense -> stor (dot A B) = Dense.
Proof. by case: A B => [[|f] a] [[|g] b] //= [|]. Qed.

Lemma lincomb_loop_dense m n mu (ops : seq (Operator m n)) :
  for_operators
    (fun m n (op : Operator m n) =>
       forall M, (apply op (Some "dense"%string) mu).2 = Ok M -> stor M = Dense)
    ops ->
  forall (res M : mat m n) cs, stor res = Dense ->
    (lincomb_loop res cs [seq apply o (Some "dense"%string) mu | o <- ops]).2
    = Ok M -> stor M = Dense.
Proof.
elim: ops => [_ res M [|a cs] dense [<-]|o ops IH /= [IHo IHops] res M [|a cs]] //.
move=> dense /= E; have [M1 /IHo dense1 E1] := tbind_Ok E.
by apply: (IH IHops _ _ _ _ E1); rewrite /= dense.
Qed.

Lemma apply_dense m n (op : Operator m n) mu :
  forall M, (apply op (Some "dense"%string) mu).2 = Ok M -> stor M = Dense.
Proof.
move: m n op.
apply: Operator_induction
  => [m n M0|m n o rp sp IHo IHrp IHsp|cs n|m k n o2 o1 IH2 IH1|n
     |m n ops cs IHops|s v t|r c] M.
- rewrite /= /action_NumpyMatrixOperator (tbind_snd _ (a := tt)) //=.
  by case: M0 => [[|g] v] /= [<-].
- rewrite /= /action_AdjointOperator (tbind_snd _ (a := tt)) // => E.
  have [A /IHo denseA {E}E] := tbind_Ok E.
  have [res1 E1 {E}E] := tbind_Ok E.
  have [res2 E2 {E}[<-]] := tbind_Ok E.
  have dense1 : stor res1 = Dense.
    case: rp IHrp E1 => [p|] /= IHp; last by case=> <-; rewrite /= denseA.
    move=> E1; have [R _ /= [<-]] := tbind_Ok E1.
    by apply: stor_dot_dense; left; rewrite /= denseA.
  case: sp IHsp E2 => [p|] /= IHp; last by case=> <-.
  move=> E2; have [S /IHp denseS] := tbind_Ok E2.
  by rewrite /issparse denseS /= /spla_solve; do 2![case: ifP => // _]; case=> <-.
- rewrite /= /action_ComponentProjection (tbind_snd _ (a := tt)) //=.
  by case: (all _ _) => //= -[<-].
- rewrite /= /action_Concatenation (tbind_snd _ (a := tt)) // => E.
  have [B _ {E}E] := tbind_Ok E.
  have [A /IH2 denseA /= [<-]] := tbind_Ok E.
  by apply: stor_dot_dense; left.
- by move=> /= [<-].
- rewrite apply_LincombOperator /action_LincombOperator (tbind_snd _ (a := tt)) //.
  case: [seq c mu | c <- cs] => [|a cs'] //.
  case: ops IHops => [|o ops] //= [IHo IHops] E.
  have [M1 /IHo dense1] := tbind_Ok E.
  exact: lincomb_loop_dense.
- rewrite /= /action_VectorArrayOperator (tbind_snd _ (a := tt)) //.
  by case: t M => /= M [<-].
by move=> /= [<-].
Qed.

Lemma issparse_dot m k n (A : mat m k) (B : mat k n) :
  issparse A -> issparse B -> issparse (dot A B).
Proof. by case: A B => [[|f] a] [[|g] b]. Qed.

Lemma lincomb_loop_sparse m n f mu (ops : seq (Operator m n)) :
  for_operators
    (fun m n (op : Operator m n) =>
       forall M, (apply op (Some f) mu).2 = Ok M -> issparse M) ops ->
  forall (res M : mat m n) cs, issparse res ->
    (lincomb_loop res cs [seq apply o (Some f) mu | o <- ops]).2 = Ok M ->
    issparse M.
Proof.
elim: ops => [_ res M [|a cs] sp [<-]|o ops IH /= [IHo IHops] res M [|a cs]] //.
move=> sp /= E; have [M1 /IHo sp1 E1] := tbind_Ok E.
apply: (IH IHops _ _ _ _ E1).
by case: (res) (M1) sp sp1 => [[|f1] v1] [[|g1] w1].
Qed.

Lemma apply_sparse m n (op : Operator m n) f mu :
  String.eqb f "dense" = false ->
  forall M, (apply op (Some f) mu).2 = Ok M -> issparse M.
Proof.
move=> not_dense; move: m n op.
apply: Operator_induction
  => [m n M0|m n o rp sp IHo IHrp IHsp|cs n|m k n o2 o1 IH2 IH1|n
     |m n ops cs IHops|s v t|r c] M.
- rewrite /= /action_NumpyMatrixOperator (tbind_snd _ (a := tt)) //= not_dense.
  by case/encode_Ok.
- rewrite /= /action_AdjointOperator (tbind_snd _ (a := tt)) // => E.
  have [A _ {E}E] := tbind_Ok E.
  have [res1 _ {E}E] := tbind_Ok E.
  have [res2 _ {E}] := tbind_Ok E.
  by rewrite /= not_dense; case/encode_Ok.
- rewrite /= /action_ComponentProjection (tbind_snd _ (a := tt)) //.
  rewrite /is_dense_name not_dense => E.
  by have [res _ /encode_Ok[]] := tbind_Ok E.
- rewrite /= /action_Concatenation (tbind_snd _ (a := tt)) // => E.
  have [B /IH1 spB {E}E] := tbind_Ok E.
  have [A /IH2 spA /= [<-]] := tbind_Ok E.
  exact: issparse_dot.
- rewrite /= /action_IdentityOperator (tbind_snd _ (a := tt)) //= not_dense.
  by case: (sps_class _) => [cls|e] //= [<-].
- rewrite apply_LincombOperator /action_LincombOperator (tbind_snd _ (a := tt)) //.
  case: [seq c mu | c <- cs] => [|a cs'] //.
  case: ops IHops => [|o ops] //= [IHo IHops] E.
  have [M1 /IHo sp1] := tbind_Ok E.
  by apply: lincomb_loop_sparse.
- rewrite /= /action_VectorArrayOperator (tbind_snd _ (a := tt)) //.
  by case: t M => /= M; rewrite not_dense; case/encode_Ok.
rewrite /= /action_ZeroOperator (tbind_snd _ (a := tt)) //= not_dense.
by case: (sps_class _) => [cls|e] //= [<-].
Qed.

(** X2. A pinned format decides the storage of the result. For every
    operator built from the variants above (no block operators), whatever
    the storage of its leaves: whenever [to_matrix(op, format=f)] returns a
    matrix, that matrix is a NumPy array if [f] is ['dense'] and a SciPy
    sparse matrix otherwise. *)
Theorem to_matrix_pinned_format m n (op : Operator m n) f mu M :
  (to_matrix op (Some f) mu).2 = Ok M ->
  issparse M = ~~ String.eqb f "dense".
Proof.
case ok: (format_ok (Some f)); last first.
  by move: ok; rewrite /to_matrix /format_ok /tassert /lift /tbind => ->.
rewrite to_matrix_snd //.
case: String.eqb_spec => [->|/String.eqb_neq not_dense] /=.
  by move/apply_dense; rewrite /issparse => ->.
exact: apply_sparse.
Qed.

(** ** The matrices of the leaves and of linear combinations *)

(** X3. For an operator that assembles to an [IdentityOperator] on a space
    of dimension [n], [to_matrix] returns, for every admissible format, a
    matrix that acts as the identity; it is a NumPy array for ['dense'] and
    a sparse matrix otherwise, in the scheme [csc] when no format is given. *)
Theorem to_matrix_IdentityOperator n (op : Operator n n) format mu :
  format_ok format -> assemble op mu = IdentityOperator n ->
  exists M,
    [/\ (to_matrix op format mu).2 = Ok M,
        issparse M = ~~ is_dense_name format,
        format = None -> stor M = Sparse csc
      & forall k (x : 'M[K]_(n, k)), val M *m x = x].
Proof.
move=> ok asm; rewrite to_matrix_snd // asm /= /action_IdentityOperator.
rewrite (tbind_snd _ (a := tt)) //; case: ifPn => dense.
  exists (Mat Dense 1%:M); split=> // [E|k x]; last by rewrite /= mul1mx.
  by rewrite E in dense.
have [cls E _] := format_or_csc_class ok dense.
exists (Mat (Sparse cls) 1%:M); split=> // [|fE|k x]; last by rewrite /= mul1mx.
  by rewrite E.
by move: E; rewrite fE /= => -[<-].
Qed.

(** X4. For an operator that assembles to a [ComponentProjection] whose
    components are all below the dimension of the source, the matrix
    [to_matrix] returns has in row [i] a single one, in column
    [components[i]]; applied to a vector it returns the selected
    components. It is dense only when ['dense'] is requested. *)
Theorem to_matrix_ComponentProjection components n
    (op : Operator (size components) n) format mu :
  format_ok format -> assemble op mu = ComponentProjection components n ->
  all (fun j => (j < n)%N) components ->
  exists M,
    [/\ (to_matrix op format mu).2 = Ok M,
        issparse M = ~~ is_dense_name format,
        forall i j, val M i j = (nth 0%N components i == j :> nat)%:R
      & forall (x : 'cV[K]_n) (i : 'I_(size components)) (j : 'I_n),
          nth 0%N components i = j -> (val M *m x) i 0 = x j 0].
Proof.
move=> ok asm in_range.
have pick (x : 'cV[K]_n) (i : 'I_(size components)) (j : 'I_n) :
  nth 0%N components i = j -> (one_hot components n *m x) i 0 = x j 0.
  move=> Ej; rewrite mxE (bigD1 j) //= mxE Ej eqxx mul1r big1 ?addr0 // => k ne_kj.
  rewrite mxE Ej; case: eqP => [/val_inj E|_]; last by rewrite mul0r.
  by rewrite E eqxx in ne_kj.
have ent i j : one_hot components n i j = (nth 0%N components i == j :> nat)%:R.
  by rewrite mxE; case: ifP.
rewrite to_matrix_snd // asm /= /action_ComponentProjection.
rewrite (tbind_snd _ (a := tt)) // in_range; case: ifPn => dense.
  by exists (Mat Dense (one_hot components n)).
have [cls E _] := format_or_csc_class ok dense.
exists (Mat (Sparse cls) (one_hot components n)); split=> //.
by rewrite (tbind_snd _ (a := Mat (Sparse coo) (one_hot components n))) // /encode E.
Qed.

Lemma lincomb_loop_val m n format mu (ops : seq (Operator m n)) :
  forall (Ms : seq (mat m n)) (cs : seq (Mu -> K)) (res : mat m n),
    [seq (apply o format mu).2 | o <- ops] = [seq Ok M | M <- Ms] ->
    (size ops <= size cs)%N ->
    exists2 M,
      (lincomb_loop res [seq c mu | c <- cs]
         [seq apply o format mu | o <- ops]).2 = Ok M
      & val M = val res + \sum_(p <- zip cs Ms) (p.1 mu) *: val p.2.
Proof.
elim: ops => [|o ops IH] [|M1 Ms] [|c cs] res //=.
- by exists res; rewrite // big_nil addr0.
- by exists res; rewrite // big_nil addr0.
case=> E1 Eops; rewrite ltnS => le_size.
have [M EM valM] := IH Ms cs (madd res (smul (c mu) M1)) Eops le_size.
by exists M; rewrite ?(tbind_snd _ E1) // valM /= big_cons addrA.
Qed.

(** X5. For an operator that assembles to a [LincombOperator] whose
    children convert to the matrices [Ms] and that has at least as many
    coefficients as children, [to_matrix] returns the matrix with the entries
    of the linear combination [sum_i coefficients[i](mu) * Ms[i]]; without
    any child the call fails with an [IndexError]. *)
Theorem to_matrix_LincombOperator m n (op : Operator m n) ops cs format mu
    (Ms : seq (mat m n)) :
  format_ok format -> assemble op mu = LincombOperator ops cs ->
  [seq (apply o format mu).2 | o <- ops] = [seq Ok M | M <- Ms] ->
  (size ops <= size cs)%N ->
  if ops is [::] then (to_matrix op format mu).2 = Raise IndexError
  else exists2 M, (to_matrix op format mu).2 = Ok M
                & val M = \sum_(p <- zip cs Ms) (p.1 mu) *: val p.2.
Proof.
move=> ok asm; rewrite to_matrix_snd // asm apply_LincombOperator.
rewrite /action_LincombOperator (tbind_snd _ (a := tt)) //.
case: ops Ms cs {asm} => [|o ops] [|M1 Ms] [|c cs] //= [E1 Eops].
rewrite ltnS => le_size.
have [M EM valM] := lincomb_loop_val (smul (c mu) M1) Eops le_size.
by exists M; rewrite ?(tbind_snd _ E1) // valM /= big_cons.
Qed.

Lemma entries_adjoint_plain m n (c : Tr (mat m n)) format :
  format_ok format ->
  entries (action_AdjointOperator c None None format)
  = match entries c with Ok a => Ok a^T | Raise e => Raise e end.
Proof.
move=> ok; rewrite /action_AdjointOperator entries_emit.
case E: c => [l [A|e]]; last by rewrite /entries /tbind.
rewrite {1}/entries (tbind_snd _ (a := A)) // !tbind_tret.
by have [M' -> ->] := encode_if_sparse_val (T A) ok.
Qed.

(** X6. Taking the adjoint twice (without inner products) gives back the
    entries of the operator: [to_matrix] of
    [AdjointOperator(AdjointOperator(op))] and of [op] return matrices with
    the same entries, or fail alike. *)
Theorem to_matrix_double_adjoint m n (op : Operator m n) format mu :
  let op2 := AdjointOperator (AdjointOperator op None None) None None in
  format_ok format -> assemble op2 mu = op2 -> assemble op mu = op ->
  entries (to_matrix op2 format mu) = entries (to_matrix op format mu).
Proof.
move=> op2 ok asm2 asm; rewrite !entries_to_matrix // asm2 asm /=.
rewrite !entries_adjoint_plain //.
by case: (entries _) => //= a; rewrite trmxK.
Qed.

(** * Further properties of the vector arrays *)

(** ** Mutators leave the other arrays alone

    [apart s0 s h H]: in [s], reached from [s0], the buffer of [h] is none
    of the buffers the instances outside [h :: H] refer to, and those
    instances and their buffers are as in [s0]. *)

Record apart (s0 s : store) (h : nat) (H : seq nat) : Prop := Apart {
  apart_base : store_ok s0;
  apart_ok : store_ok s;
  apart_valid : (h < size (objs s))%N;
  apart_objs : size (objs s) = size (objs s0);
  apart_arrays : (size (arrays s0) <= size (arrays s))%N;
  apart_same : forall u, u \notin h :: H -> obj s u = obj s0 u;
  apart_old : forall u, (u < size (objs s0))%N -> u \notin h :: H ->
    buffer s (_array (obj s0 u)) = buffer s0 (_array (obj s0 u));
  apart_excl : forall u, (u < size (objs s0))%N -> u \notin h :: H ->
    _array (obj s h) != _array (obj s0 u)
}.

Lemma apart_fresh s0 s h H u :
  apart s0 s h H -> (u < size (objs s0))%N ->
  (_array (obj s0 u) < size (arrays s))%N.
Proof.
case=> ok0 _ _ _ le_arr _ _ _ lt_u; have /and3P[_ lt_a _] := ok0 u lt_u.
exact: leq_trans lt_a le_arr.
Qed.

Section Apart.

Variables (s0 : store) (h : nat) (H : seq nat) (w : nat).
Hypothesis w_in : w \in h :: H.

Let out u : u \notin h :: H -> (u == w) = false.
Proof. by move=> u_out; apply: contraNF u_out => /eqP ->. Qed.

Lemma apart_replaced A s :
  apart s0 s h H -> (w < size (objs s))%N -> apart s0 (replaced w A s) h H.
Proof.
move=> ap lt_w; have fresh := apart_fresh ap.
case: ap => ok0 ok_s lt_h sz le_arr same old excl.
split=> //; rewrite ?size_objs_replaced ?size_arrays_replaced //.
- exact: store_ok_replaced.
- exact: leqW.
- by move=> u u_out; rewrite obj_replaced out // same.
- by move=> u lt_u u_out; rewrite buffer_replaced ltn_eqF ?old ?fresh.
move=> u lt_u u_out; rewrite obj_replaced; case: ifP => _ /=; last exact: excl.
by rewrite gtn_eqF // fresh.
Qed.

Lemma apart_relen n s :
  apart s0 s h H -> (w < size (objs s))%N -> apart s0 (relen w n s) h H.
Proof.
case=> ok0 ok_s lt_h sz le_arr same old excl lt_w.
split=> //; rewrite ?size_objs_relen //.
- exact: store_ok_relen.
- by move=> u u_out; rewrite obj_relen out // same.
by move=> u lt_u u_out; rewrite obj_relen; case: (eqVneq h w) => [<-|_] /=; apply: excl.
Qed.

Lemma apart_cowed s :
  apart s0 s h H -> (w < size (objs s))%N -> apart s0 (cowed w s) h H.
Proof.
move=> ap lt_w; rewrite /cowed; case: ifP => // _; have fresh := apart_fresh ap.
case: ap => ok0 ok_s lt_h sz le_arr same old excl.
split=> //; rewrite ?size_objs_deep_copied ?size_arrays_deep_copied //.
- exact: store_ok_deep_copied.
- exact: leqW.
- by move=> u u_out; rewrite obj_deep_copied out // same.
- by move=> u lt_u u_out; rewrite buffer_deep_copied ltn_eqF ?old ?fresh.
move=> u lt_u u_out; rewrite obj_deep_copied; case: ifP => _ /=; last exact: excl.
by rewrite gtn_eqF // fresh.
Qed.

End Apart.

Lemma apart_updated s0 s h H g : apart s0 s h H -> apart s0 (updated h g s) h H.
Proof.
case=> ok0 ok_s lt_h sz le_arr same old excl; have /and3P[_ lt_a _] := ok_s h lt_h.
split=> //; rewrite ?size_arrays_updated //.
- exact: store_ok_updated.
by move=> u lt_u u_out; rewrite buffer_updated eq_sym (negPf (excl u lt_u u_out)) old.
Qed.

(** After the copy-on-write prologue the buffer of [h] is its own. *)
Lemma apart_init s h H :
  store_ok s -> sharing_ok s -> (h < size (objs s))%N ->
  apart s (cowed h s) h H.
Proof.
move=> ok_s sh lt_h.
have same u : u != h -> obj (cowed h s) u = obj s u.
  by move=> /negPf ne; rewrite /cowed; case: ifP => // _; rewrite obj_deep_copied ne.
have out u : u \notin h :: H -> u != h.
  by rewrite inE negb_or => /andP[].
split=> //; rewrite ?size_objs_cowed //.
- exact: store_ok_cowed.
- by rewrite /cowed; case: ifP => // _; rewrite size_arrays_deep_copied.
- by move=> u /out/same.
- move=> u lt_u _; have /and3P[_ lt_a _] := ok_s u lt_u.
  by rewrite /cowed; case: ifP => // _; rewrite buffer_deep_copied ltn_eqF.
move=> u lt_u /out ne; rewrite eq_sym -(same u ne).
exact: cowed_unshared.
Qed.

Section ApartSteps.

Variables (s0 : store) (h : nat) (H : seq nat) (w : nat).
Hypothesis w_in : w \in h :: H.
Hypothesis w_valid : (w < size (objs s0))%N.

Let I := fun s => apart s0 s h H.

Lemma apart_w s : I s -> (w < size (objs s))%N.
Proof. by move=> ap; rewrite (apart_objs ap). Qed.

Lemma stays_astype dt : keeps I (astype w dt).
Proof.
move=> s Is; exists tt; eexists; rewrite astypeE; split=> //.
by apply: apart_replaced => //; apply: apart_w.
Qed.

Lemma stays_alloc_set A :
  keeps I (bind (new_ndarray A) (fun a => set_array w a)).
Proof.
apply: (keeps_step (t := replaced w A)) => // s Is.
by apply: apart_replaced => //; apply: apart_w.
Qed.

Lemma stays_alloc_set_bind A B (k : unit -> St B) :
  keeps I (k tt) ->
  keeps I (bind (new_ndarray A) (fun a => bind (set_array w a) k)).
Proof.
move=> Hk s Is; rewrite bind_alloc_set; apply: Hk.
by apply: apart_replaced => //; apply: apart_w.
Qed.

Lemma stays_set_len n : keeps I (set_len w n).
Proof.
apply: (keeps_step (t := relen w n)) => // s Is.
by apply: apart_relen => //; apply: apart_w.
Qed.

Lemma stays_cow : keeps I (cow w).
Proof.
move=> s Is; have lt_w := apart_w Is.
exists tt, (cowed w s); split; last exact: apart_cowed.
by apply: cowE; apply: (apart_ok Is).
Qed.

End ApartSteps.

Lemma stays_update_array s0 h H g :
  keeps (fun s => apart s0 s h H) (update_array h g).
Proof.
by apply: (keeps_step (t := updated h g)) => // s; apply: apart_updated.
Qed.

Ltac stays_steps :=
  repeat first
    [ apply: keeps_ret
    | apply: keeps_read
    | apply: stays_update_array
    | apply: stays_astype => //
    | apply: stays_set_len => //
    | apply: stays_alloc_set => //
    | apply: stays_alloc_set_bind => //
    | apply: keeps_when
    | apply: keeps_bind; [ | move=> ? ] ].

Section ApartMethods.

Variables (s0 : store) (h : nat) (H : seq nat).
Hypothesis h_valid : (h < size (objs s0))%N.

Let I := fun s => apart s0 s h H.
Let h_in : h \in h :: H := mem_head h H.

Lemma stays_scal_update n alpha ind : keeps I (scal_update h n alpha ind).
Proof.
rewrite /scal_update; case: ifP => _; first exact: keeps_ret.
by case: ind => [|i|l]; case: alpha => [d a|d a]; stays_steps.
Qed.

Lemma stays_axpy_update n alpha x ind : keeps I (axpy_update h n alpha x ind).
Proof.
rewrite /axpy_update; set ind' := (if _ then IndNone else ind).
case: ifP => _; first exact: keeps_ret.
apply: keeps_bind; first exact: keeps_read.
move=> B; apply: keeps_bind; first exact: keeps_read.
move=> Bdt; apply: keeps_bind; first by rewrite /axpy_promote; stays_steps.
move=> _; rewrite /axpy_add /axpy_sub /axpy_general.
by case: ifP => _; [|case: ifP => _]; case: ind' => [|i|l]; stays_steps.
Qed.

Lemma stays_append_rows other : keeps I (append_rows h other).
Proof.
rewrite /append_rows; apply: keeps_bind; first exact: keeps_read.
move=> lo; apply: keeps_bind; first exact: keeps_read.
move=> n; apply: keeps_bind; first exact: keeps_read.
move=> A; apply: keeps_bind; first exact: keeps_read.
by move=> O; case: ifP => _; stays_steps.
Qed.

Lemma stays_remove_rows w n ind :
  w \in h :: H -> (w < size (objs s0))%N -> check_ind n ind ->
  keeps I (remove_rows w n ind).
Proof.
move=> w_in w_valid ok_ind; rewrite /remove_rows.
apply: keeps_bind; first exact: keeps_read.
move=> A; case: ind ok_ind => [_|i /in_range_gt ok_i|l _].
- by stays_steps.
- by apply: keeps_bind; [apply: keeps_assert | move=> _; stays_steps].
by case: ifP => _; stays_steps.
Qed.

Lemma stays_remove w ind :
  w \in h :: H -> (w < size (objs s0))%N ->
  (forall s, I s -> check_ind (len s w) ind) -> keeps I (remove w ind).
Proof.
move=> w_in w_valid ok_ind s Is; rewrite /remove bind_read bind_assert ok_ind //.
have [[] [s1 [E1 I1]]] := stays_cow w_in w_valid Is.
rewrite (bindE _ E1).
have ok := ok_ind s Is.
exact: (stays_remove_rows w_in w_valid ok I1).
Qed.

End ApartMethods.

(** X7. An in-place mutator changes no other array. In a store where
    instances share a buffer only under the reference counting of [copy],
    a call of [scal], [axpy], [append] or [remove] on [h] whose assertions
    hold succeeds, and every other instance keeps its length, its dimension
    and its contents, whether or not [h] shared its buffer; the only
    exception is the [other] that [append(other, remove_from_other=True)]
    is asked to empty. *)
Theorem mutators_leave_others s h m :
  store_ok s -> sharing_ok s -> (h < size (objs s))%N -> operands_ok s m ->
  mutator_pre s h m ->
  exists s',
    [/\ run m h s = Ok (tt, s'), store_ok s', size (objs s') = size (objs s)
      & forall u, (u < size (objs s))%N -> u != h -> u \notin emptied m ->
          [/\ data s' u = data s u, len s' u = len s u & dim s' u = dim s u]].
Proof.
move=> ok_s sh lt_h ok_m pre; have ok_h := ok_s h lt_h.
have Icow H : apart s (cowed h s) h H by apply: apart_init.
have [s' [E ap]] : exists s', run m h s = Ok (tt, s') /\ apart s s' h (emptied m).
  case: m pre ok_m => [alpha ind|alpha x ind|other rfo|ind] /=.
  - case/andP=> ok1 ok2 _.
    rewrite /scal bind_read bind_assert ok1 bind_assert ok2 (bindE _ (cowE ok_h)).
    by apply: keeps_unit (Icow _); apply: stays_scal_update.
  - case/and4P=> ok1 ok2 ok3 ok4 _.
    rewrite /axpy bind_read bind_assert ok1 !bind_read bind_assert ok2.
    rewrite bind_read bind_assert ok3 bind_assert ok4 (bindE _ (cowE ok_h)).
    by apply: keeps_unit (Icow _); apply: stays_axpy_update.
  - case/andP=> ok1 ok2 lt_o.
    rewrite /append !bind_read bind_assert ok1 bind_assert ok2.
    rewrite (bindE _ (cowE ok_h)).
    case: rfo ok2 => [|_] /=; last first.
      have [s1 [E1 I1]] := keeps_unit (stays_append_rows lt_h other) (Icow [::]).
      by rewrite bind_ret (bindE _ E1) /=; exists s1.
    rewrite orbF => ne_oh.
    have o_in : other \in [:: h; other] by rewrite !inE eqxx orbT.
    have [s1 [E1 I1]] := keeps_unit (stays_cow o_in lt_o) (Icow [:: other]).
    rewrite (bindE _ E1).
    have [s2 [E2 I2]] := keeps_unit (stays_append_rows lt_h other) I1.
    rewrite (bindE _ E2).
    by apply: keeps_unit I2; apply: stays_remove.
  move=> ok1 _.
  rewrite /remove bind_read bind_assert ok1 (bindE _ (cowE ok_h)).
  by apply: keeps_unit (Icow _); apply: stays_remove_rows; rewrite ?inE.
exists s'; split=> //; first exact: apart_ok ap.
  exact: apart_objs ap.
move=> u lt_u ne_uh u_out.
have u_out' : u \notin h :: emptied m by rewrite inE negb_or ne_uh.
have same := apart_same ap u_out'; have old := apart_old ap lt_u u_out'.
by rewrite /data /len /dim /array_of !same !old.
Qed.

(** ** What [scal] and [axpy] compute *)

(** The factor that applies to the [k]-th selected row. *)
Definition coeff (alpha : Alpha) (k : nat) : K :=
  match alpha with AlphaNum _ a => a | AlphaArray _ a => nth 0 a k end.

Lemma nth_map2 A B C (f : A -> B -> C) x0 y0 z0 (s : seq A) (t : seq B) i :
  (i < size s)%N -> (i < size t)%N ->
  nth z0 (map2 f s t) i = f (nth x0 s i) (nth y0 t i).
Proof.
move=> lt_s lt_t; rewrite /map2 (nth_map (x0, y0)) ?size_zip ?leq_min ?lt_s //.
by rewrite nth_zip_cond size_zip leq_min lt_s lt_t.
Qed.

Lemma size_map2 A B C (f : A -> B -> C) (s : seq A) (t : seq B) :
  size (map2 f s t) = minn (size s) (size t).
Proof. by rewrite /map2 size_map size_zip. Qed.

Lemma nth_setitem (r : seq (seq K)) pos vals i :
  uniq pos -> size vals = size pos ->
  nth [::] (setitem r pos vals) i
  = if i \in pos then nth [::] vals (index i pos) else nth [::] r i.
Proof.
rewrite /setitem; elim: pos vals r => [|p pos IH] [|v vals] r //=.
case/andP=> p_out uniq_pos [sz]; rewrite IH // inE [p == i]eq_sym.
case: (eqVneq i p) => [->|ne_ip] /=; last first.
  by case: ifP => // _; rewrite nth_set_nth /= (negPf ne_ip).
by rewrite (negPf p_out) nth_set_nth /= eqxx.
Qed.

Lemma size_setitem (r : seq (seq K)) pos vals :
  all (fun p => p < size r)%N pos -> size (setitem r pos vals) = size r.
Proof.
rewrite /setitem; elim: pos vals r => [|p pos IH] [|v vals] r //=.
by case/andP=> lt_p lt_pos; rewrite IH ?size_set_nth (maxn_idPr lt_p).
Qed.

Lemma uniq_positions n ind :
  check_ind_unique n ind -> uniq (positions n ind).
Proof.
case: ind => [|i|l] //=; first by rewrite iota_uniq.
case/andP=> /allP in_l uniq_l; rewrite map_inj_in_uniq // => x y /in_l/andP[x0 _].
by move=> /in_l/andP[y0 _] E; rewrite -(gez0_abs x0) -(gez0_abs y0) E.
Qed.

Lemma positions_lt n ind :
  check_ind_unique n ind -> all (fun p => p < n)%N (positions n ind).
Proof.
have lt_abs i : in_range n i -> (absz i < n)%N.
  by case/andP=> i0; rewrite -{1}(gez0_abs i0) ltz_nat.
case: ind => [|i|l] /=.
- by move=> _; apply/allP=> p; rewrite mem_iota.
- by move/lt_abs->.
by case/andP=> /allP in_l _; apply/allP=> p /mapP[i /in_l/lt_abs lt_i ->].
Qed.

Lemma size_positions n ind : size (positions n ind) = len_ind n ind.
Proof. by case: ind => [|i|l] //=; rewrite ?size_iota ?size_map. Qed.

Lemma index_iota0 n r : (r < n)%N -> index r (iota 0 n) = r.
Proof.
move=> lt_r; have E : nth 0%N (iota 0 n) r = r by rewrite nth_iota.
by rewrite -{1}E index_uniq ?size_iota ?iota_uniq.
Qed.

Lemma size_mul_alpha (G : seq (seq K)) alpha :
  alpha_ok alpha (size G) -> size (mul_alpha G alpha) = size G.
Proof.
case: alpha => [d a|d a] /=; first by rewrite size_map.
by move/eqP=> sz; rewrite /mul_column size_map2 size_broadcast sz minnn.
Qed.

Lemma scaled_nth (G : seq (seq K)) alpha k :
  alpha_ok alpha (size G) -> (k < size G)%N ->
  nth [::] (mul_alpha G alpha) k = scale_row (nth [::] G k) (coeff alpha k).
Proof.
case: alpha => [d a|d a] /= => [_ lt_k|/eqP sz lt_k].
  by rewrite (nth_map [::]).
by rewrite /mul_column broadcast_id // (nth_map2 _ [::] 0) ?sz.
Qed.

(** The in-place update that [scal] applies to the buffer. *)
Definition scal_change (n : nat) (alpha : Alpha) (ind : Ind) :
  ndarray -> ndarray :=
  match ind, alpha with
  | IndNone, AlphaNum _ a => on_slice n (mul_num^~ a)
  | IndNone, AlphaArray _ a => on_slice n (mul_column^~ a)
  | IndNum i, AlphaNum _ a => on_row (absz i) (scale_row^~ a)
  | IndNum i, AlphaArray _ a => on_row (absz i) (mul_row_array^~ a)
  | IndList l, AlphaNum _ a => on_index (map absz l) (mul_num^~ a)
  | IndList l, AlphaArray _ a => on_index (map absz l) (mul_column^~ a)
  end.

Lemma scal_updateE v n alpha ind s1 :
  scal_update v n alpha ind s1
  = if NUMPY_INDEX_QUIRK && (n == 0%N) then Ok (tt, s1)
    else (A <- read (array_of^~ v) ;;
          when (~~ dtype_eqb (dtype A) (alpha_dtype alpha))
               (astype v (promote_types (dtype A) (alpha_dtype alpha))) ;;;
          update_array v (scal_change n alpha ind)) s1.
Proof. by rewrite /scal_update; case: ifP => // _; case: ind; case: alpha. Qed.

Lemma shape1_scal_change n alpha ind A :
  shape1 (scal_change n alpha ind A) = shape1 A.
Proof. by case: ind; case: alpha. Qed.

Lemma nth_getitem (R : seq (seq K)) pos k :
  (k < size pos)%N -> nth [::] (getitem R pos) k = nth [::] R (nth 0%N pos k).
Proof. by move=> lt_k; rewrite /getitem (nth_map 0%N). Qed.

Lemma scal_change_row n alpha ind (A : ndarray) r :
  (n <= shape0 A)%N -> check_ind_unique n ind ->
  alpha_ok alpha (len_ind n ind) -> (r < n)%N ->
  nth [::] (rows (scal_change n alpha ind A)) r
  = if r \in positions n ind
    then scale_row (nth [::] (rows A) r)
           (coeff alpha (index r (positions n ind)))
    else nth [::] (rows A) r.
Proof.
move=> le_n ok_ind ok_alpha lt_r.
have sz_take : size (take n (rows A)) = n by rewrite size_takel.
case: ind ok_ind ok_alpha => [_|i ok_i|l ok_l] /= ok_alpha.
- rewrite mem_iota /= add0n lt_r index_iota0 //.
  have -> : rows (scal_change n alpha IndNone A)
            = mul_alpha (take n (rows A)) alpha ++ drop n (rows A).
      by case: alpha {ok_alpha}.
  by rewrite nth_cat size_mul_alpha ?sz_take // lt_r scaled_nth ?sz_take // nth_take.
- have -> : rows (scal_change n alpha (IndNum i) A)
            = set_nth [::] (rows A) (absz i)
                (scale_row (nth [::] (rows A) (absz i)) (coeff alpha 0)).
    case: alpha ok_alpha => [d a|d a] //= /eqP sz1.
    by rewrite /mul_row_array sz1 eqxx nth0.
  by rewrite nth_set_nth /= inE; case: eqP => [->|] //=; rewrite eqxx.
set pos := map absz l.
have uniq_pos : uniq pos := uniq_positions (ind := IndList l) ok_l.
have sz_G : size (getitem (rows A) pos) = size l by rewrite !size_map.
have -> : rows (scal_change n alpha (IndList l) A)
          = setitem (rows A) pos (mul_alpha (getitem (rows A) pos) alpha).
  by case: alpha {ok_alpha}.
rewrite nth_setitem ?size_mul_alpha ?sz_G ?size_map //.
case: ifP => // r_in.
have sz_pos : size pos = size l by rewrite size_map.
rewrite scaled_nth; [by rewrite sz_G|by rewrite sz_G -sz_pos index_mem|].
by rewrite nth_getitem ?index_mem // nth_index.
Qed.

(** X8. [scal] multiplies the selected rows. For an array [v] and
    admissible, non-repeating indices, [v.scal(alpha, ind=ind)] succeeds and
    keeps length and dimension; the [k]-th selected row is multiplied by
    [alpha], or by [alpha[k]] when [alpha] is an array, and every row that is
    not selected is unchanged. *)
Theorem scal_spec s v alpha ind :
  store_ok s -> (v < size (objs s))%N -> (len s v <= shape0 (array_of s v))%N ->
  check_ind_unique (len s v) ind -> alpha_ok alpha (len_ind (len s v) ind) ->
  exists s',
    [/\ scal v alpha ind s = Ok (tt, s'), len s' v = len s v, dim s' v = dim s v
      & forall r, (r < len s v)%N ->
          nth [::] (data s' v) r
          = if r \in positions (len s v) ind
            then scale_row (nth [::] (data s v) r)
                   (coeff alpha (index r (positions (len s v) ind)))
            else nth [::] (data s v) r].
Proof.
move=> ok_s lt_v cap ok_ind ok_alpha; have ok_v := ok_s v lt_v.
rewrite /scal bind_read bind_assert ok_ind bind_assert ok_alpha.
rewrite (bindE _ (cowE ok_v)); set s1 := cowed v s.
have A1 : array_of s1 v = array_of s v by apply: array_of_cowed.
have len1 : len s1 v = len s v by apply: len_cowed.
rewrite scal_updateE; case: ifP => [/andP[_ /eqP n0]|_].
  exists s1; split=> //; first by rewrite /dim A1.
  by move=> r; rewrite n0.
rewrite bind_read; set c := ~~ dtype_eqb _ _; set dt := promote_types _ _.
pose s2 := if c then replaced v (Ndarray dt (shape1 (array_of s1 v))
                                         (rows (array_of s1 v))) s1
           else s1.
have E2 : when c (astype v dt) s1 = Ok (tt, s2).
  by rewrite /when /s2; case: (c) => //; rewrite astypeE.
have [rows2 shape2 len2] :
  [/\ rows (array_of s2 v) = rows (array_of s v),
      shape1 (array_of s2 v) = shape1 (array_of s v) & len s2 v = len s v].
  by rewrite /s2; case: (c); rewrite ?array_of_replaced_self ?len_replaced /= ?A1.
rewrite (bindE _ E2) update_arrayE.
set g := scal_change _ _ _; exists (updated v g s2).
have Ag : array_of (updated v g s2) v = g (array_of s2 v).
  by rewrite array_of_updated eqxx.
split=> //; first by rewrite /dim Ag shape1_scal_change.
move=> r lt_r; rewrite /data -!/(array_of _ _) -!/(len _ _) len_updated len2.
rewrite Ag !nth_take // scal_change_row ?rows2 //.
by rewrite /shape0 rows2.
Qed.

(** The in-place update of the multiply-and-add branch of [axpy]. *)
Definition axpy_change (n : nat) (ind : Ind) (B : seq (seq K)) (alpha : Alpha) :
  ndarray -> ndarray :=
  match ind with
  | IndNone => on_slice n (add_rows^~ (mul_alpha B alpha))
  | IndNum i => on_row (absz i) (add_row^~ (flatten (mul_alpha B alpha)))
  | IndList l => on_index (map absz l) (add_rows^~ (mul_alpha B alpha))
  end.

Lemma axpy_generalE v n ind B alpha :
  axpy_general v n ind B alpha = update_array v (axpy_change n ind B alpha).
Proof. by case: ind. Qed.

Lemma shape1_axpy_change n ind B alpha A :
  shape1 (axpy_change n ind B alpha A) = shape1 A.
Proof. by case: ind. Qed.

Lemma nth_broadcast_mul_alpha k (B : seq (seq K)) alpha j :
  alpha_ok alpha k -> (j < k)%N ->
  nth [::] (broadcast k (mul_alpha B alpha)) j
  = scale_row (nth [::] (broadcast k B) j) (coeff alpha j).
Proof.
case: alpha => [d a|d a] /= => [_ lt_j|/eqP sz lt_j].
  by rewrite /mul_num broadcast_map // (nth_map [::]) ?size_broadcast.
rewrite /mul_column sz broadcast_id ?size_map2 ?size_broadcast ?sz ?minnn //.
by rewrite (nth_map2 _ [::] 0) ?size_broadcast ?sz.
Qed.

Lemma nth_add_rows (X B : seq (seq K)) alpha j :
  alpha_ok alpha (size X) -> (j < size X)%N ->
  nth [::] (add_rows X (mul_alpha B alpha)) j
  = add_row (nth [::] X j)
      (scale_row (nth [::] (broadcast (size X) B) j) (coeff alpha j)).
Proof.
move=> ok_alpha lt_j.
by rewrite /add_rows (nth_map2 _ [::] [::]) ?size_broadcast //
     nth_broadcast_mul_alpha.
Qed.

Lemma size_add_rows (X B : seq (seq K)) : size (add_rows X B) = size X.
Proof. by rewrite /add_rows size_map2 size_broadcast minnn. Qed.

Lemma flatten_one_row (B : seq (seq K)) alpha :
  size B = 1%N -> alpha_ok alpha 1 ->
  flatten (mul_alpha B alpha)
  = scale_row (nth [::] (broadcast 1 B) 0) (coeff alpha 0).
Proof.
case: B => [|b [|b' B]] // _; case: alpha => [d a|d [|a0 [|a1 a]]] //= _.
  by rewrite cats0.
by rewrite /mul_column /broadcast /= /map2 /= cats0.
Qed.

Lemma axpy_change_row n ind (B : seq (seq K)) alpha (A : ndarray) r :
  (n <= shape0 A)%N -> check_ind_unique n ind ->
  (len_ind n ind == size B) || (size B == 1%N) ->
  alpha_ok alpha (len_ind n ind) -> (r < n)%N ->
  nth [::] (rows (axpy_change n ind B alpha A)) r
  = if r \in positions n ind
    then add_row (nth [::] (rows A) r)
           (scale_row
              (nth [::] (broadcast (len_ind n ind) B)
                   (index r (positions n ind)))
              (coeff alpha (index r (positions n ind))))
    else nth [::] (rows A) r.
Proof.
move=> le_n ok_ind ok_len ok_alpha lt_r.
have sz_take : size (take n (rows A)) = n by rewrite size_takel.
case: ind ok_ind ok_len ok_alpha => [_|i ok_i|l ok_l] /= ok_len ok_alpha.
- rewrite mem_iota /= add0n lt_r index_iota0 // nth_cat size_add_rows sz_take.
  by rewrite lt_r nth_add_rows ?sz_take // nth_take.
- have sz1 : size B = 1%N by move: ok_len; rewrite eq_sym orbb => /eqP.
  rewrite nth_set_nth /= inE flatten_one_row //.
  by case: eqP => [->|] //=; rewrite eqxx.
set pos := map absz l.
have uniq_pos : uniq pos := uniq_positions (ind := IndList l) ok_l.
have sz_pos : size pos = size l by rewrite size_map.
have sz_G : size (getitem (rows A) pos) = size l by rewrite !size_map.
rewrite nth_setitem ?size_add_rows ?sz_G //.
case: ifP => // r_in.
rewrite nth_add_rows; [by rewrite sz_G|by rewrite sz_G -sz_pos index_mem|].
by rewrite sz_G nth_getitem ?index_mem // nth_index.
Qed.

Lemma add_row_scale0 (r b : seq K) :
  (size r <= size b)%N -> add_row r (scale_row b 0) = r.
Proof.
rewrite /add_row /scale_row /map2.
elim: r b => [|x r IH] [|y b] //=; rewrite ltnS => /IH ->.
by rewrite mulr0 addr0.
Qed.

Lemma coeff_all_eq alpha c m k :
  np_all_eq alpha c -> alpha_ok alpha m -> (k < m)%N -> coeff alpha k = c.
Proof.
case: alpha => [d a|d a] /= => [/eqP //|/all_nthP all_c /eqP sz lt_k].
by apply/eqP/all_c; rewrite sz.
Qed.

Lemma size_row (A : ndarray) r :
  ndarray_wf A -> (r < shape0 A)%N -> size (nth [::] (rows A) r) = shape1 A.
Proof. by move=> /all_nthP wf lt_r; apply/eqP/wf. Qed.

Lemma size_broadcast_row s x m k :
  ndarray_wf (array_of s x) -> (len s x <= shape0 (array_of s x))%N ->
  (m == len s x) || (len s x == 1%N) -> (k < m)%N ->
  size (nth [::] (broadcast m (data s x)) k) = dim s x.
Proof.
move=> wf cap ok_len lt_k.
have szB : size (data s x) = len s x by rewrite /data size_takel.
rewrite /broadcast szB eq_sym; case: ifP ok_len => [/eqP Em _|_ /= /eqP len1].
  have lt_k' : (k < len s x)%N by rewrite -Em.
  by rewrite /data nth_take // size_row // (leq_trans lt_k').
have lt0 : (0 < len s x)%N by rewrite len1.
rewrite nth_nseq lt_k -nth0 /data nth_take // size_row //.
exact: leq_trans lt0 cap.
Qed.

(** X9. [axpy] adds multiples of the rows of [x]. For arrays [v] and [x]
    of the same dimension with rows of full width, and admissible,
    non-repeating indices, [v.axpy(alpha, x, ind=ind)] succeeds and keeps
    length and dimension; to the [k]-th selected row it adds [alpha] (or
    [alpha[k]]) times the [k]-th row of [x] (the only row of [x] when [x]
    has one row), and every row that is not selected is unchanged. This
    holds on all four paths of the code, also for [x] being [v] itself. *)
Theorem axpy_spec s v alpha x ind :
  store_ok s -> (v < size (objs s))%N -> (x < size (objs s))%N ->
  (len s v <= shape0 (array_of s v))%N -> (len s x <= shape0 (array_of s x))%N ->
  ndarray_wf (array_of s v) -> ndarray_wf (array_of s x) ->
  axpy_pre s v alpha x ind ->
  exists s',
    [/\ axpy v alpha x ind s = Ok (tt, s'), len s' v = len s v,
        dim s' v = dim s v
      & forall r, (r < len s v)%N ->
          nth [::] (data s' v) r
          = if r \in positions (len s v) ind
            then add_row (nth [::] (data s v) r)
                   (scale_row
                      (nth [::] (broadcast (len_ind (len s v) ind) (data s x))
                           (index r (positions (len s v) ind)))
                      (coeff alpha (index r (positions (len s v) ind))))
            else nth [::] (data s v) r].
Proof.
move=> ok_s lt_v lt_x cap capx wf wfx /and4P[ok_ind ok_dim ok_len ok_alpha].
have ok_v := ok_s v lt_v; have ok_x := ok_s x lt_x; have eq_dim := eqP ok_dim.
rewrite /axpy bind_read bind_assert ok_ind !bind_read bind_assert ok_dim.
rewrite bind_read bind_assert ok_len bind_assert ok_alpha (bindE _ (cowE ok_v)).
set s1 := cowed v s; set n := len s v.
have A1 : array_of s1 v = array_of s v by apply: array_of_cowed.
have len1 : len s1 v = n by apply: len_cowed.
have B1 : data s1 x = data s x by apply: data_cowed.
have szB : size (data s x) = len s x by rewrite /data size_takel.
rewrite axpy_update_refines ?A1 ?B1 ?szB //.
rewrite /axpy_update_general; set ind' := if _ then IndNone else ind.
have ind'E : (0 < n)%N -> ind' = ind.
  by rewrite /ind' -/n; case: (n) => // n' _; rewrite andbF.
case: ifP => [zero|_].
  exists s1; split=> //; first by rewrite /dim A1.
  move=> r lt_r; rewrite /data -!/(array_of _ _) -!/(len _ _) len1 A1.
  case: ifP => // r_in; set k := index r _.
  have lt_k : (k < len_ind n ind)%N by rewrite -size_positions index_mem.
  rewrite (coeff_all_eq zero ok_alpha lt_k) add_row_scale0 //.
  rewrite -/(data s x) size_broadcast_row // nth_take // size_row //.
    exact: leq_trans lt_r cap.
  by rewrite -/(dim s v) eq_dim.
rewrite !bind_read B1.
set Bdt := dtype _.
pose c := ~~ dtype_eqb (dtype (array_of s1 v)) (alpha_dtype alpha)
          || ~~ dtype_eqb (dtype (array_of s1 v)) Bdt.
pose dt := promote_types (promote_types (dtype (array_of s1 v)) (alpha_dtype alpha))
             Bdt.
pose s2 := if c then replaced v (Ndarray dt (shape1 (array_of s1 v))
                                         (rows (array_of s1 v))) s1
           else s1.
have E2 : axpy_promote v alpha Bdt s1 = Ok (tt, s2).
  by rewrite /axpy_promote bind_read /when /s2 -/c; case: (c) => //; rewrite astypeE.
have [rows2 shape2 len2] :
  [/\ rows (array_of s2 v) = rows (array_of s v),
      shape1 (array_of s2 v) = shape1 (array_of s v) & len s2 v = n].
  by rewrite /s2; case: (c); rewrite ?array_of_replaced_self ?len_replaced /= ?A1.
rewrite (bindE _ E2) axpy_generalE update_arrayE.
set g := axpy_change _ _ _ _; exists (updated v g s2).
have Ag : array_of (updated v g s2) v = g (array_of s2 v).
  by rewrite array_of_updated eqxx.
split=> //; first by rewrite /dim Ag shape1_axpy_change.
move=> r lt_r; rewrite /data -!/(array_of _ _) -!/(len _ _) len_updated len2.
have n_gt0 : (0 < n)%N by apply: leq_ltn_trans lt_r.
rewrite Ag !nth_take // /g ind'E // axpy_change_row ?rows2 ?szB //.
by rewrite /shape0 rows2.
Qed.

(** ** Arrays with a buffer of their own: deep copies and [make_array] *)

(** The state after [NumpyVectorArray(contents)] for contents that the new
    instance does not share. *)
Definition created (contents : ndarray) (s : store) : store :=
  alloc_obj (mkVA (size (arrays s)) (shape0 contents) (size (cells s)))
    (alloc_cell 1 (alloc_array contents s)).

Lemma init_ownE contents copy s :
  init contents None copy s = Ok (size (objs s), created contents s).
Proof. by case: copy. Qed.

Lemma obj_created C s u :
  obj (created C s) u
  = if u == size (objs s) then mkVA (size (arrays s)) (shape0 C) (size (cells s))
    else obj s u.
Proof. by rewrite /created !obsE. Qed.

Lemma buffer_created C s a :
  buffer (created C s) a = if a == size (arrays s) then C else buffer s a.
Proof. by rewrite /created !obsE. Qed.

Lemma cell_created C s c :
  cell (created C s) c = if c == size (cells s) then 1 else cell s c.
Proof. by rewrite /created !obsE. Qed.

Lemma size_created C s :
  [/\ size (objs (created C s)) = (size (objs s)).+1,
      size (arrays (created C s)) = (size (arrays s)).+1
    & size (cells (created C s)) = (size (cells s)).+1].
Proof. by rewrite /created /alloc_obj /alloc_cell /alloc_array /= !size_rcons. Qed.

Arguments created : simpl never.

Lemma store_ok_created C s : store_ok s -> store_ok (created C s).
Proof.
move=> ok_s u; have [szo sza szc] := size_created C s.
rewrite /obj_ok szo sza szc obj_created => lt_u; rewrite lt_u /=.
case: (eqVneq u (size _)) => [_|ne_u] /=; first by rewrite !ltnSn.
have lt_u' : (u < size (objs s))%N by rewrite ltn_neqAle ne_u -ltnS.
by have /and3P[_ lt_a lt_c] := ok_s u lt_u'; rewrite !ltnS (ltnW lt_a) (ltnW lt_c).
Qed.

(** A new instance with a buffer of its own leaves the others as they
    were and shares nothing with them. *)
Lemma created_frame C s :
  store_ok s ->
  let c := size (objs s) in
  [/\ refcount_of (created C s) c = 1,
      array_of (created C s) c = C /\ len (created C s) c = shape0 C,
      forall u, (u < size (objs s))%N ->
        _array (obj (created C s) u) != _array (obj (created C s) c)
    & forall u, (u < size (objs s))%N ->
        [/\ obj (created C s) u = obj s u, data (created C s) u = data s u
          & refcount_of (created C s) u = refcount_of s u]].
Proof.
move=> ok_s c.
have old u : (u < size (objs s))%N -> obj (created C s) u = obj s u.
  by move=> lt_u; rewrite obj_created ltn_eqF.
have new : obj (created C s) c = mkVA (size (arrays s)) (shape0 C) (size (cells s)).
  by rewrite obj_created eqxx.
split.
- by rewrite /refcount_of new cell_created eqxx.
- by rewrite /array_of /len new buffer_created eqxx.
- move=> u lt_u; have /and3P[_ lt_a _] := ok_s u lt_u.
  by rewrite new old //= (ltn_eqF lt_a).
move=> u lt_u; have /and3P[_ lt_a lt_c] := ok_s u lt_u.
rewrite /data /refcount_of /array_of old // buffer_created cell_created.
by rewrite (ltn_eqF lt_a) (ltn_eqF lt_c).
Qed.

Lemma check_ind_positions n ind :
  check_ind n ind -> all (fun p => p < n)%N (positions n ind).
Proof.
have lt_abs i : in_range n i -> (absz i < n)%N.
  by case/andP=> i0; rewrite -{1}(gez0_abs i0) ltz_nat.
case: ind => [|i|l] /=.
- by move=> _; apply/allP=> p; rewrite mem_iota.
- by move/lt_abs->.
by move/allP=> in_l; apply/allP=> p /mapP[i /in_l/lt_abs lt_i ->].
Qed.

Lemma getitem_take (R : seq (seq K)) n pos :
  all (fun p => p < n)%N pos -> getitem (take n R) pos = getitem R pos.
Proof. by move/allP=> lt_pos; apply/eq_in_map => p /lt_pos lt_p; rewrite nth_take. Qed.

(** X10. A deep or an indexed copy is independent of its source. For
    admissible indices, [v.copy(ind, deep)] with [deep=True] or with
    indices returns a new instance whose rows are the selected rows of
    [v], in a buffer no other instance refers to and with a counter of its
    own equal to one; [v] and every other instance keep their buffer, their
    contents and their counter. *)
Theorem copy_deep_independent s v ind (deep : bool) :
  store_ok s -> (v < size (objs s))%N -> (len s v <= shape0 (array_of s v))%N ->
  check_ind (len s v) ind -> deep || (if ind is IndNone then false else true) ->
  let c := size (objs s) in
  exists s',
    [/\ copy v ind deep s = Ok (c, s'),
        [/\ store_ok s', refcount_of s' c = 1
          & forall u, (u < size (objs s))%N ->
              _array (obj s' u) != _array (obj s' c)],
        forall u, (u < size (objs s))%N ->
          [/\ obj s' u = obj s u, data s' u = data s u
            & refcount_of s' u = refcount_of s u]
      & [/\ data s' c = getitem (data s v) (positions (len s v) ind),
            len s' c = len_ind (len s v) ind & dim s' c = dim s v]].
Proof.
move=> ok_s lt_v cap ok_ind not_shallow c.
rewrite /copy bind_read bind_assert ok_ind bind_read.
have -> : ~~ deep && (if ind is IndNone then true else false) = false.
  by case: deep ind not_shallow {ok_ind} => [|] [].
set A := array_of s v; set n := len s v.
have done C :
  rows C = getitem (take n (rows A)) (positions n ind) -> shape1 C = shape1 A ->
  exists s',
    [/\ Ok (c, created C s) = Ok (c, s'),
        [/\ store_ok s', refcount_of s' c = 1
          & forall u, (u < size (objs s))%N ->
              _array (obj s' u) != _array (obj s' c)],
        forall u, (u < size (objs s))%N ->
          [/\ obj s' u = obj s u, data s' u = data s u
            & refcount_of s' u = refcount_of s u]
      & [/\ data s' c = getitem (data s v) (positions (len s v) ind),
            len s' c = len_ind (len s v) ind & dim s' c = dim s v]].
  move=> rowsC shapeC; have [rc [AC lenC] excl frame] := created_frame C ok_s.
  exists (created C s); split=> //; first by split=> //; apply: store_ok_created.
  rewrite /data -!/(array_of _ _) -!/(len _ _) /dim AC lenC /shape0 take_size.
  by rewrite rowsC size_map size_positions.
have szA : size (take n (rows A)) = n by rewrite size_takel.
case: ifP => [/andP[_ /eqP n0]|_].
  rewrite init_ownE; apply: done => //=.
  case: (ind) ok_ind => [|i|[|i l]] //=; rewrite -/n n0 //.
    by rewrite /in_range ltNge andbN.
  by rewrite /in_range ltNge andbN.
move: (check_ind_positions ok_ind) done.
case: (ind) => [|i|l] lt_pos done; rewrite init_ownE; apply: done => //=.
- by rewrite /getitem map_nth_iota0 ?szA // take_takel.
- by move: lt_pos; rewrite /= andbT => lt_i; rewrite nth_take.
by rewrite getitem_take.
Qed.

(** [NumpyVectorArray.make_array] for a dimension [subtype] (the type
    check of [subtype] is that of the binder); [np.zeros] gives a buffer of
    element type [float64]. *)
Definition make_array (subtype : nat) (count reserve : int) : St nat :=
  assert (0 <= count) ;;;
  assert (0 <= reserve) ;;;
  va <- init (Ndarray Float64 0 [::]) None false ;;
  a <- new_ndarray
         (Ndarray Float64 subtype
            (nseq (absz (if count <= reserve then reserve else count))
                  (nseq subtype 0))) ;;
  set_array va a ;;;
  set_len va (absz count) ;;;
  ret va.

Lemma make_arrayE s d (count reserve : int) :
  store_ok s -> 0 <= count -> 0 <= reserve ->
  let c := size (objs s) in
  exists s',
    [/\ make_array d count reserve s = Ok (c, s'),
        [/\ store_ok s', size (objs s') = (size (objs s)).+1,
            refcount_of s' c = 1
          & forall u, (u < size (objs s))%N ->
              _array (obj s' u) != _array (obj s' c)],
        forall u, (u < size (objs s))%N ->
          [/\ obj s' u = obj s u, array_of s' u = array_of s u
            & refcount_of s' u = refcount_of s u]
      & [/\ len s' c = absz count,
            array_of s' c
            = Ndarray Float64 d
                (nseq (absz (if count <= reserve then reserve else count))
                      (nseq d 0))
          & data s' c = nseq (absz count) (nseq d 0)]].
Proof.
move=> ok_s count0 reserve0 c.
rewrite /make_array bind_assert count0 bind_assert reserve0.
set E := Ndarray Float64 0 [::]; set Z := Ndarray Float64 d _.
rewrite (bindE _ (init_ownE E false s)) bind_alloc_set (bindE _ (set_lenE _ _ _)).
set s1 := created E s; set s3 := relen c _ (replaced c Z s1).
have [szo sza szc] := size_created E s.
have [rc1 _ excl1 frame1] := created_frame E ok_s.
have lt_c : (c < size (objs s1))%N by rewrite szo.
have ok1 : store_ok s1 by apply: store_ok_created.
have obj_c : obj s3 c = mkVA (size (arrays s1)) (absz count) (size (cells s)).
  by rewrite obj_relen eqxx obj_replaced eqxx /= obj_created eqxx.
have obj_old u : (u < size (objs s))%N -> obj s3 u = obj s u.
  move=> lt_u; rewrite obj_relen (ltn_eqF lt_u) obj_replaced (ltn_eqF lt_u).
  by have [-> _ _] := frame1 u lt_u.
have buf a : (a <= size (arrays s))%N -> buffer s3 a = buffer s1 a.
  by move=> le_a; rewrite buffer_relen buffer_replaced sza ltn_eqF.
have Ac : array_of s3 c = Z.
  by rewrite /array_of obj_c /= buffer_relen buffer_replaced eqxx.
exists s3; split=> //.
- split=> //.
  + by apply: store_ok_relen; rewrite ?size_objs_replaced //; apply: store_ok_replaced.
  + by rewrite size_objs_relen ?size_objs_replaced.
  + by rewrite /refcount_of obj_c /= cell_relen cell_replaced cell_created eqxx.
  move=> u lt_u; have /and3P[_ lt_a _] := ok_s u lt_u.
  by rewrite obj_c obj_old //= sza ltn_eqF // ltnW.
- move=> u lt_u; have /and3P[_ lt_a lt_rc] := ok_s u lt_u.
  split; first exact: obj_old.
    by rewrite /array_of obj_old // buf ?(ltnW lt_a) // buffer_created (ltn_eqF lt_a).
  rewrite /refcount_of obj_old // cell_relen cell_replaced cell_created.
  by rewrite (ltn_eqF lt_rc).
split=> //; first by rewrite /len obj_c.
rewrite /data -/(array_of s3 c) Ac obj_c /= take_nseq //.
by case: ifP => // le_cr; rewrite -lez_nat !gez0_abs.
Qed.

(** X11. [make_array(subtype, count, reserve)] fails an assertion when
    [count] or [reserve] is negative; otherwise it returns a new array of
    [count] zero vectors of dimension [subtype], in a buffer with room for
    [max(count, reserve)] vectors that no other instance refers to, with a
    counter equal to one, and the existing arrays keep contents and
    counters. *)
Theorem make_array_spec s d (count reserve : int) :
  store_ok s ->
  let c := size (objs s) in
  if (0 <= count) && (0 <= reserve) then
    exists s',
      [/\ make_array d count reserve s = Ok (c, s'),
          [/\ len s' c = absz count, dim s' c = d
            & data s' c = nseq (absz count) (nseq d 0)],
          [/\ (absz count <= shape0 (array_of s' c))%N,
              (absz reserve <= shape0 (array_of s' c))%N
            & ndarray_wf (array_of s' c)],
          [/\ store_ok s', refcount_of s' c = 1
            & forall u, (u < size (objs s))%N ->
                _array (obj s' u) != _array (obj s' c)]
        & forall u, (u < size (objs s))%N ->
            data s' u = data s u /\ refcount_of s' u = refcount_of s u]
  else make_array d count reserve s = Raise AssertionError.
Proof.
move=> ok_s c; case: ifP => [/andP[count0 reserve0]|]; last first.
  rewrite /make_array bind_assert; case: (0 <= count) => //=.
  by rewrite bind_assert => ->.
have [s' [E [ok' _ rc excl] frame [lenc Ac datac]]] :=
  make_arrayE d ok_s count0 reserve0.
exists s'; split=> //; first by rewrite /dim Ac.
- rewrite Ac /shape0 /ndarray_wf /= size_nseq all_nseq size_nseq eqxx orbT.
  by split=> //; case: ifP => [le_cr|/negbT]; rewrite -lez_nat !gez0_abs //
       -ltNge => /ltW.
move=> u lt_u; have [objE AE rcE] := frame u lt_u.
by rewrite /data -!/(array_of _ _) AE objE.
Qed.

(** X12. Reserving room and then appending gives a copy: a new array made
    by [make_array(v.dim, count=0, reserve=r)], to which [v] is appended,
    has the length, the dimension and the rows of [v], for every [r >= 0],
    whether or not the reserved room suffices; [v] is unchanged. *)
Theorem reserve_then_append s v (reserve : int) :
  store_ok s -> (v < size (objs s))%N -> (len s v <= shape0 (array_of s v))%N ->
  0 <= reserve ->
  let c := size (objs s) in
  exists s1 s2,
    [/\ make_array (dim s v) 0 reserve s = Ok (c, s1),
        append c v false s1 = Ok (tt, s2),
        [/\ data s2 c = data s v, len s2 c = len s v & dim s2 c = dim s v]
      & data s2 v = data s v /\ len s2 v = len s v].
Proof.
move=> ok_s lt_v cap reserve0 c.
have [s1 [E1 [ok1 szo rc excl] frame [lenc Ac datac]]] :=
  make_arrayE (dim s v) ok_s (lexx 0) reserve0.
have [objv Av rcv] := frame v lt_v.
have lt_v1 : (v < size (objs s1))%N by rewrite szo ltnW.
have lt_c1 : (c < size (objs s1))%N by rewrite szo.
have dimc : dim s1 c = dim s v by rewrite /dim Ac.
have dimv : dim s1 v = dim s v by rewrite /dim Av.
have lenv : len s1 v = len s v by rewrite /len objv.
have datav : data s1 v = data s v by rewrite /data -!/(array_of _ _) Av objv.
have capc : (len s1 c <= shape0 (array_of s1 c))%N by rewrite lenc.
have capv : (len s1 v <= shape0 (array_of s1 v))%N by rewrite lenv Av.
have [s2 [E2 [ok2 sz2] [len2 data2 dim2] others]] :=
  append_rows_spec ok1 lt_c1 lt_v1 capc capv.
exists s1, s2; split=> //.
- rewrite /append !bind_read bind_assert dimc dimv eqxx bind_assert orbT.
  rewrite (bindE _ (cowE (ok1 c lt_c1))) /cowed rc ltxx /when bind_ret.
  by rewrite (bindE _ E2).
- by rewrite data2 datac datav len2 lenc lenv dim2 dimc.
have ne_vc : v != c by rewrite (ltn_eqF lt_v).
have [objE AE] := others v lt_v1 ne_vc (excl v lt_v).
by rewrite /data /len -!/(array_of _ _) AE objE -/(data s1 v) datav -/(len s1 v).
Qed.

(** [NumpyVectorArray.__del__]: [self._refcount[0] -= 1] *)
Definition __del__ (self : nat) : St unit :=
  rc <- read (fun s => _refcount (obj s self)) ;;
  n <- read (cell^~ rc) ;;
  write_cell rc (n - 1).

(** X13. Deleting a copy undoes the counting of [copy]: after
    [c = v.copy()] and the deletion of [c], every array that existed before
    has the buffer, the contents and the counter it had, so that a later
    mutator copies a buffer exactly when it would have before. *)
Theorem copy_then_del s v :
  store_ok s -> (v < size (objs s))%N ->
  exists c s1 s2,
    [/\ copy v IndNone false s = Ok (c, s1), refcount_of s1 v = refcount_of s v + 1,
        __del__ c s1 = Ok (tt, s2)
      & forall u, (u < size (objs s))%N ->
          [/\ obj s2 u = obj s u, data s2 u = data s u
            & refcount_of s2 u = refcount_of s u]].
Proof.
move=> ok_s lt_v; have ok_v := ok_s v lt_v; have /and3P[_ lt_a lt_rc] := ok_v.
set c := size (objs s); set s1 := shallow_copied v s.
set rc := _refcount (obj s v).
have obj_c : obj s1 c = mkVA (_array (obj s v)) (_len (obj s v)) rc.
  by rewrite obj_shallow_copied eqxx.
have cell_rc : cell s1 rc = cell s rc + 1 by rewrite cell_shallow_copied eqxx.
exists c, s1, (put_cell rc (cell s rc + 1 - 1) s1); split.
- exact: copy_shallowE.
- by rewrite /refcount_of obj_shallow_copied (ltn_eqF lt_v) cell_rc.
- by rewrite /__del__ !bind_read obj_c /= cell_rc.
move=> u lt_u; have /and3P[_ lt_au lt_rcu] := ok_s u lt_u.
have objE : obj (put_cell rc (cell s rc + 1 - 1) s1) u = obj s u.
  by rewrite obj_put_cell obj_shallow_copied (ltn_eqF lt_u).
split=> //; first by rewrite /data /array_of objE.
rewrite /refcount_of objE cell_put_cell addrK cell_shallow_copied -/rc.
by case: eqP => [->|_] //; rewrite (ltn_eqF lt_rcu).
Qed.

(** ** Products, norms and components *)

(** [np.conj] on the scalars. *)
Variable conj : K -> K.

Definition is_complex (d : Dtype) : bool :=
  if d is Complex128 then true else false.

(** A row of [B.conj()] when the element type of [B] is complex, of [B]
    otherwise. *)
Definition conj_if_complex (B : ndarray) (r : seq K) : seq K :=
  if is_complex (dtype B) then map conj r else r.

(** The sum of the products of the entries of two rows. *)
Definition row_dot (a b : seq K) : K := \sum_(p <- zip a b) p.1 * p.2.

(** [NumpyVectorArray.dot]: the matrix [A.dot(B.conj().T)], or [A.dot(B.T)],
    by rows. *)
Definition va_dot (self other : nat) : St (seq (seq K)) :=
  dself <- read (dim^~ self) ;;
  dother <- read (dim^~ other) ;;
  assert (dself == dother) ;;;
  A <- read (data^~ self) ;;
  B <- read (data^~ other) ;;
  O <- read (array_of^~ other) ;;
  ret [seq [seq row_dot a (conj_if_complex O b) | b <- B] | a <- A].

(** [NumpyVectorArray.pairwise_dot]: [np.sum(A * B.conj(), axis=1)], or
    [np.sum(A * B, axis=1)]. *)
Definition pairwise_dot (self other : nat) : St (seq K) :=
  dself <- read (dim^~ self) ;;
  dother <- read (dim^~ other) ;;
  assert (dself == dother) ;;;
  lself <- read (len^~ self) ;;
  lother <- read (len^~ other) ;;
  assert (lself == lother) ;;;
  A <- read (data^~ self) ;;
  B <- read (data^~ other) ;;
  O <- read (array_of^~ other) ;;
  ret [seq row_dot p.1 (conj_if_complex O p.2) | p <- zip A B].

(** [NumpyVectorArray.l1_norm]: [np.linalg.norm(A, ord=1, axis=1)] *)
Definition l1_norm (self : nat) : St (seq K) :=
  A <- read (data^~ self) ;;
  ret [seq \sum_(x <- r) `|x| | r <- A].

(** X14. [pairwise_dot] is the diagonal of [dot]: for arrays of equal
    dimension and equal length both calls succeed without changing the
    store, and entry [i] of [v.pairwise_dot(w)] is entry [(i, i)] of
    [v.dot(w)]; when the dimensions differ both fail an assertion. *)
Theorem pairwise_dot_diagonal s v w :
  (len s v <= shape0 (array_of s v))%N -> (len s w <= shape0 (array_of s w))%N ->
  len s v = len s w ->
  if dim s v == dim s w then
    exists G pd,
      [/\ va_dot v w s = Ok (G, s), pairwise_dot v w s = Ok (pd, s),
          size G = len s v /\ size pd = len s v
        & forall i, (i < len s v)%N ->
            size (nth [::] G i) = len s w
            /\ nth 0 pd i = nth 0 (nth [::] G i) i]
  else va_dot v w s = Raise AssertionError
       /\ pairwise_dot v w s = Raise AssertionError.
Proof.
move=> capv capw eq_len.
have szA : size (data s v) = len s v by rewrite /data size_takel.
have szB : size (data s w) = len s w by rewrite /data size_takel.
rewrite /va_dot /pairwise_dot !bind_read !bind_assert.
case E: (dim s v == dim s w) => //.
rewrite !bind_read bind_assert -eq_len eqxx !bind_read.
do 2!eexists; split; [by []|by []| |].
  by rewrite !size_map size_zip szA szB -eq_len minnn.
move=> i lt_i; have lt_i' : (i < len s w)%N by rewrite -eq_len.
rewrite (nth_map [::]) ?szA // size_map szB; split=> //.
rewrite (nth_map [::]) ?szB // (nth_map ([::], [::])) ?size_zip ?szA ?szB
  -?eq_len ?minnn //.
by rewrite nth_zip ?szA ?szB.
Qed.

Lemma nth_abs_le_sum (r : seq K) j :
  nth 0 [seq `|x| | x <- r] j <= \sum_(x <- r) `|x|.
Proof.
elim: r j => [|x r IH] [|j] /=; rewrite ?big_nil ?big_cons //.
  by rewrite lerDl sumr_ge0.
by apply: le_trans (IH j) _; rewrite lerDr.
Qed.

(** X15. The largest magnitude of a row is bounded by its l1 norm. For an
    array of positive dimension, [amax] and [l1_norm] succeed without
    changing the store; for every row the magnitude [amax] reports lies
    between zero and the l1 norm of the row, and the l1 norm is zero exactly
    for a row of zeros. *)
Theorem amax_le_l1_norm s v :
  (0 < dim s v)%N ->
  exists max_ind max_val norms,
    [/\ amax v s = Ok ((max_ind, max_val), s), l1_norm v s = Ok (norms, s),
        size max_val = size (data s v) /\ size norms = size (data s v)
      & forall k, (k < size (data s v))%N ->
          0 <= nth 0 max_val k <= nth 0 norms k
          /\ (nth 0 norms k == 0) = all (fun x => x == 0) (nth [::] (data s v) k)].
Proof.
move=> dim_gt0; rewrite /amax /l1_norm !bind_read bind_assert dim_gt0 !bind_read.
rewrite -/(dim s v) (gtn_eqF dim_gt0) -/(data s v).
do 3!eexists; split; [by []|by []| |].
  by rewrite !size_map size_zip !size_map minnn.
set A' := [seq [seq `|x| | x <- r] | r <- data s v].
move=> k lt_k; have lt_k' : (k < size A')%N by rewrite size_map.
rewrite (nth_map ([::], 0%N)) ?size_zip ?size_map ?minnn //.
rewrite nth_zip ?size_map //= (nth_map [::]) // (nth_map [::]) //.
set r := nth [::] (data s v) k.
have -> : nth [::] A' k = [seq `|x| | x <- r] by rewrite (nth_map [::]).
split.
  rewrite nth_abs_le_sum andbT.
  case: (ltnP (np_argmax [seq `|x| | x <- r]) (size r)) => [lt_j|le_j].
    by rewrite (nth_map 0).
  by rewrite nth_default // size_map.
rewrite psumr_eq0 //.
by apply: eq_all => x; rewrite /= normr_eq0.
Qed.

(** [NumpyVectorArray.components] for a list or a one-dimensional array of
    indices; the result is a two-dimensional array. Indexing columns of a
    non-empty array out of range is an [IndexError] of NumPy. *)
Definition components (self : nat) (component_indices : seq int) : St ndarray :=
  l <- read (len^~ self) ;;
  d <- read (dim^~ self) ;;
  A <- read (array_of^~ self) ;;
  assert (all (fun j => 0 <= j) component_indices) ;;;
  assert ((0 < l)%N || all (fun j => j < d%:Z) component_indices) ;;;
  if NUMPY_INDEX_QUIRK && ((l == 0%N) || (d == 0%N)) then
    assert (all (fun j => j < d%:Z) component_indices) ;;;
    ret (Ndarray Float64 (size component_indices) [::])
  else if all (fun j => j < d%:Z) component_indices then
    ret (Ndarray (dtype A) (size component_indices)
           [seq [seq nth 0 r (absz j) | j <- component_indices]
              | r <- take l (rows A)])
  else fun _ => Raise IndexError.

Lemma all_in_range n (l : seq int) :
  all (in_range n) l = all (fun j => 0 <= j) l && all (fun j => j < n%:Z) l.
Proof. by rewrite -all_predI. Qed.

Lemma componentsE s v ci :
  all (in_range (dim s v)) ci ->
  exists C,
    [/\ components v ci s = Ok (C, s), shape1 C = size ci
      & rows C = if NUMPY_INDEX_QUIRK && (dim s v == 0%N) then [::]
                 else [seq [seq nth 0 r (absz j) | j <- ci] | r <- data s v]].
Proof.
rewrite all_in_range => /andP[ge0 lt_d].
rewrite /components !bind_read bind_assert ge0 bind_assert lt_d orbT.
case: ifP => [quirk|not_quirk]; last first.
  eexists; split; [by []|by []|].
  by case: ifP => //= /andP[qT d0]; rewrite qT d0 orbT in not_quirk.
rewrite bind_assert /=; eexists; split; [by []|by []|].
case: ifP => //= not_q; case/andP: quirk => qT /orP[/eqP len0|d0].
  by rewrite /data -/(len s v) len0 take0.
by rewrite qT d0 in not_q.
Qed.

(** X16. [components] selects columns. For indices in [[0, dim)],
    [v.components(indices)] succeeds without changing the store and returns
    an array with one column per index, whose row [i] holds the entries
    [indices[k]] of the [i]-th vector; with the index quirk of NumPy
    switched on and dimension zero it returns an array without rows. A
    negative index fails an assertion; an index beyond the dimension is an
    [IndexError] if the array is not empty and an assertion failure if it
    is. *)
Theorem components_spec s v (ci : seq int) :
  if all (in_range (dim s v)) ci then
    exists C,
      [/\ components v ci s = Ok (C, s), shape1 C = size ci
        & rows C = if NUMPY_INDEX_QUIRK && (dim s v == 0%N) then [::]
                   else [seq [seq nth 0 r (absz j) | j <- ci] | r <- data s v]]
  else components v ci s
       = Raise (if [&& all (fun j => 0 <= j) ci, (0 < len s v)%N
                     & ~~ (NUMPY_INDEX_QUIRK && (dim s v == 0%N))]
                then IndexError else AssertionError).
Proof.
case: ifP => [/componentsE //|]; rewrite all_in_range.
rewrite /components !bind_read bind_assert; case: (all _ ci) => //= /negbT lt_d.
rewrite bind_assert (negPf lt_d) orbF; case: ltnP => //= len_gt0.
rewrite -!/(len s v) -!/(dim s v) (gtn_eqF len_gt0) /=.
by case: ifP.
Qed.

(** X17. Selecting every component gives back the vectors: for an array
    whose rows have full width, [v.components(range(v.dim))] returns the rows
    of [v] (unless the index quirk applies to an array of dimension
    zero). *)
Theorem components_all s v :
  ndarray_wf (array_of s v) -> ~~ (NUMPY_INDEX_QUIRK && (dim s v == 0%N)) ->
  exists C,
    [/\ components v [seq (j%:Z : int) | j <- iota 0 (dim s v)] s = Ok (C, s),
        shape1 C = dim s v & rows C = data s v].
Proof.
move=> /allP wf /negPf not_quirk.
have in_d : all (in_range (dim s v)) [seq (j%:Z : int) | j <- iota 0 (dim s v)].
  by apply/allP=> _ /mapP[j + ->]; rewrite mem_iota /in_range /= ltz_nat.
have [C [E shapeC rowsC]] := componentsE in_d.
exists C; split=> //; first by rewrite shapeC size_map size_iota.
rewrite rowsC not_quirk -[RHS]map_id; apply/eq_in_map => r /mem_take/wf/eqP sz.
have sz' : size r = dim s v := sz.
rewrite -map_comp (@eq_map _ _ _ (nth 0 r)) // map_nth_iota0 ?sz' //.
by rewrite take_oversize ?sz'.
Qed.

(** ** Linear combinations *)

(** The argument of [lincomb]: an array of coefficients with its element
    type, of one dimension, of two dimensions (with [shape[1]] and its
    rows), or of another number of dimensions. *)
Inductive Coefficients :=
  | Coeff1 of Dtype & seq K
  | Coeff2 of Dtype & nat & seq (seq K)
  | CoeffNd.

(** [C.dot(A)] for rows [C] of length [n] and [n] rows [A] of width [d] *)
Definition dot_rows (C : seq (seq K)) (n d : nat) (A : seq (seq K)) :
  seq (seq K) :=
  [seq [seq \sum_(0 <= l < n) nth 0 c l * nth 0 (nth [::] A l) j
          | j <- iota 0 d]
     | c <- C].

(** [NumpyVectorArray.lincomb] *)
Definition lincomb (self : nat) (coefficients : Coefficients) : St nat :=
  assert (if coefficients is CoeffNd then false else true) ;;;
  let: (dt, m, C) :=
    match coefficients with
    | Coeff1 dt c => (dt, size c, [:: c])   (* coefficients[np.newaxis, ...] *)
    | Coeff2 dt m C => (dt, m, C)
    | CoeffNd => (Float64, 0%N, [::])
    end in
  n <- read (len^~ self) ;;
  assert (m == n) ;;;
  A <- read (array_of^~ self) ;;
  init (Ndarray (promote_types dt (dtype A)) (shape1 A)
          (dot_rows C n (shape1 A) (take n (rows A))))
       None false.

(** X18. The matrix of a [VectorArrayOperator] applies as [lincomb]. For
    an array [v] and the operator [VectorArrayOperator(v)] (not
    transposed), [to_matrix] returns a matrix with one column per vector of
    [v], and the product of that matrix with a column of coefficients has
    the entries of the vector that [v.lincomb(coefficients)] returns;
    [lincomb] puts it into a new array of length one and leaves the
    existing arrays as they are. *)
Theorem VectorArrayOperator_lincomb s v dt (x : 'cV[K]_(len s v)) format mu :
  let op := VectorArrayOperator s v false in
  format_ok format -> assemble op mu = op -> store_ok s ->
  let c := size (objs s) in
  exists (M : mat (dim s v) (len s v)) s',
    [/\ (to_matrix op format mu).2 = Ok M,
        lincomb v (Coeff1 dt [seq x l 0 | l <- enum 'I_(len s v)]) s
        = Ok (c, s'),
        len s' c = 1%N /\ dim s' c = dim s v,
        forall u, (u < size (objs s))%N -> data s' u = data s u
      & forall j : 'I_(dim s v),
          (val M *m x) j 0 = nth 0 (nth [::] (data s' c) 0) j].
Proof.
move=> op ok asm ok_s c.
have [M EM valM] := encode_if_sparse_val (T (Mat Dense (data_matrix s v))) ok.
set cs := [seq x l 0 | l <- enum 'I_(len s v)].
pose C := Ndarray (promote_types dt (dtype (array_of s v))) (dim s v)
            (dot_rows [:: cs] (len s v) (dim s v) (data s v)).
have [rc [AC lenC] excl frame] := created_frame C ok_s.
exists M, (created C s); split.
- rewrite to_matrix_snd // asm /= /action_VectorArrayOperator.
  by rewrite (tbind_snd _ (a := tt)).
- rewrite /lincomb bind_assert /= bind_read bind_assert.
  by rewrite size_map size_enum_ord eqxx bind_read init_ownE.
- by rewrite lenC /dim AC.
- by move=> u /frame[].
move=> j; rewrite valM !mxE /data -!/(array_of _ _) -!/(len _ _) AC lenC /=.
rewrite (nth_map 0%N) ?size_iota // nth_iota // add0n big_mkord.
apply: eq_bigr => l _; rewrite !mxE mulrC; congr (_ * _).
by rewrite /cs (nth_map l) ?size_enum_ord // nth_ord_enum.
Qed.

End Pymor.

(** * Instances

    The statements above at concrete stores and operators over the rational
    numbers. *)

Section Instances.

Local Open Scope ring_scope.

Let two_rows : ndarray rat := Ndarray Float64 2 [:: [:: 1; 2]; [:: 3; -4]].

(** One array of two rows. *)
Definition store_one : store rat := Store [:: two_rows] [:: 1] [:: mkVA 0 2 0].

(** Two arrays that share one buffer, as after [copy()]. *)
Definition store_shared : store rat :=
  Store [:: two_rows] [:: 2] [:: mkVA 0 2 0; mkVA 0 2 0].

(** Two arrays with buffers of their own. *)
Definition store_two : store rat :=
  Store [:: two_rows; Ndarray Float64 2 [:: [:: 5; 6]]] [:: 1; 1]
        [:: mkVA 0 2 0; mkVA 1 1 1].

(** An array of two rows of width zero. *)
Definition store_zero_width : store rat :=
  Store [:: Ndarray Float64 0 [:: [::]; [::]]] [:: 1] [:: mkVA 0 2 0].

Lemma store_one_ok : store_ok store_one.
Proof. by case. Qed.

Lemma store_shared_ok : store_ok store_shared.
Proof. by do 2![case=> //]. Qed.

Lemma store_two_ok : store_ok store_two.
Proof. by do 2![case=> //]. Qed.

Lemma store_two_sharing : sharing_ok store_two.
Proof. by do 2![case=> //]; do 2![case=> //]. Qed.

End Instances.


Lemma axpy_zero_splits_witness :
  exists s', axpy true 0 (AlphaNum Float64 0) 1 IndNone store_shared = Ok (tt, s')
             /\ refcount_of s' 0 = 1.
Proof.
have pre : axpy_pre store_shared 0 (AlphaNum Float64 0) 1 IndNone by [].
have zero : np_all_eq (AlphaNum Float64 (0 : rat)) 0 by rewrite /= eqxx.
have [s' [E [rc _ _] _ _ _]] :=
  axpy_zero_splits true (ind := IndNone) store_shared_ok
    (isT : (0 < 2)%N) pre zero (isT : (1 : int) < 2).
by exists s'.
Defined.

Lemma amax_zero_width_fails :
  amax 0 store_zero_width = Raise AssertionError
  /\ amax 0 store_zero_width
     <> Ok ((nseq 2 (-1), nseq 2 0), store_zero_width).
Proof. by []. Qed.

Lemma amax_spec_witness :
  exists max_ind max_val, amax 0 store_one = Ok ((max_ind, max_val), store_one).
Proof.
case: (@amax_spec rat store_one 0 isT) => mi [mv [E _ _ _]].
by exists mi, mv.
Defined.

Lemma remove_spec_witness :
  exists s', remove 0 (IndList [:: 1%:Z]) store_one = Ok (tt, s')
             /\ len s' 0 = 1%N.
Proof.
have [rm _ _] := remove_spec store_one_ok (isT : (0 < 1)%N) (leqnn 2).
have [s' [E _ len' _]] := rm [:: 1%:Z] isT isT.
by exists s'.
Defined.


Lemma axpy_fast_paths_witness :
  axpy true 0 (AlphaNum Float64 1) 1 IndNone store_two
  = axpy_multiply_add true 0 (AlphaNum Float64 1) 1 IndNone store_two.
Proof.
have pre : axpy_pre store_two 0 (AlphaNum Float64 1) 1 IndNone by [].
have one : np_all_eq (AlphaNum Float64 (1 : rat)) 1 by rewrite /= eqxx.
have [_ add _ _] :=
  axpy_fast_paths true (ind := IndNone) store_two_ok (isT : (0 < 2)%N)
    (isT : (1 < 2)%N) (leqnn 2) (leqnn 1) pre.
exact: add.
Defined.

Section OperatorInstances.

Local Open Scope ring_scope.

(** An installation whose sparse results keep the scheme of their first
    operand, and operators that assemble to themselves. *)
Definition keep_scheme (f : sparse_format) : sparse_format := f.
Definition left_scheme (f g : sparse_format) : sparse_format := f.
Definition assembled m n (op : Operator rat unit m n) (mu : unit) :
  Operator rat unit m n := op.

Definition to_matrix_rat m n (op : Operator rat unit m n)
    (format : option string) : Tr (mat rat m n) :=
  to_matrix keep_scheme left_scheme left_scheme left_scheme assembled op
    format tt.


Definition dense_identity : Operator rat unit 2 2 :=
  NumpyMatrixOperator unit (Mat Dense (1%:M : 'M[rat]_2)).

(** The identity in the scheme [csc], and multiples of the identity: twice
    it as an array and in the scheme [csc], three times it as an array. *)
Definition sparse_identity : Operator rat unit 2 2 :=
  NumpyMatrixOperator unit (Mat (Sparse csc) (1%:M : 'M[rat]_2)).

Definition dense_twofold : Operator rat unit 2 2 :=
  NumpyMatrixOperator unit (Mat Dense ((2%:Q)%:M : 'M[rat]_2)).



End OperatorInstances.

Lemma to_matrix_ZeroOperator_witness :
  exists M, (to_matrix_rat (ZeroOperator rat unit 3 4) None).2 = Ok M
            /\ stor M = Sparse csc.
Proof.
have [[M [E st _]] _ _] :=
  @to_matrix_ZeroOperator rat keep_scheme left_scheme left_scheme left_scheme
    unit assembled 3 4 (ZeroOperator rat unit 3 4) tt erefl.
by exists M.
Defined.

Lemma to_matrix_Concatenation_witness :
  exists2 M,
    (to_matrix_rat (Concatenation dense_identity dense_identity) None).2 = Ok M
    & val M = (1%:M : 'M[rat]_2) *m 1%:M.
Proof.
have [res _ _] :=
  @to_matrix_Concatenation rat keep_scheme left_scheme left_scheme left_scheme
    unit assembled 2 2 2 (Concatenation dense_identity dense_identity)
    dense_identity dense_identity None tt (Mat Dense 1%:M) (Mat Dense 1%:M)
    isT erefl erefl erefl.
exact: res.
Defined.



(** * Instances of the further properties *)

Section MoreInstances.

Local Open Scope ring_scope.

(** Twice the identity, as a linear combination. *)
Definition twice_identity : Operator rat unit 2 2 :=
  LincombOperator [:: dense_identity] [:: fun _ : unit => 2%:Q].

(** The projection onto the components 1 and 0 of a space of dimension 2. *)
Definition swap_projection : Operator rat unit 2 2 :=
  ComponentProjection rat unit [:: 1%N; 0%N] 2.

(** The operator of the array of [store_one]. *)
Definition array_operator : Operator rat unit 2 2 :=
  VectorArrayOperator unit store_one 0 false.

End MoreInstances.

Lemma to_matrix_entries_any_format_witness :
  exists M M',
    [/\ (to_matrix_rat (Concatenation sparse_identity dense_twofold) None).2
        = Ok M,
        (to_matrix_rat (Concatenation sparse_identity dense_twofold)
           (Some "csr"%string)).2 = Ok M'
      & val M = val M'].
Proof.
exists (Mat Dense (1%:M *m (2%:Q)%:M)), (Mat (Sparse csr) (1%:M *m (2%:Q)%:M)).
split; [by []|by []|].
exact: (@to_matrix_entries_any_format rat keep_scheme left_scheme left_scheme
          left_scheme unit assembled 2 2
          (Concatenation sparse_identity dense_twofold) None
          (Some "csr"%string) tt _ _ erefl erefl).
Defined.

Lemma to_matrix_pinned_format_witness :
  exists M, (to_matrix_rat dense_identity (Some "dense"%string)).2 = Ok M
            /\ issparse M = false.
Proof.
have sp :=
  @to_matrix_pinned_format rat keep_scheme left_scheme left_scheme left_scheme
    unit assembled 2 2 dense_identity "dense" tt (Mat Dense 1%:M) erefl.
by exists (Mat Dense 1%:M); split; [|exact: sp].
Defined.

Lemma to_matrix_IdentityOperator_witness :
  exists M, (to_matrix_rat (IdentityOperator rat unit 2) None).2 = Ok M
            /\ stor M = Sparse csc.
Proof.
have [M [E _ st _]] :=
  @to_matrix_IdentityOperator rat keep_scheme left_scheme left_scheme
    left_scheme unit assembled 2 (IdentityOperator rat unit 2) None tt isT erefl.
by exists M; split=> //; apply: st.
Defined.

Lemma to_matrix_ComponentProjection_witness :
  exists M, (to_matrix_rat swap_projection (Some "dense"%string)).2 = Ok M
            /\ issparse M = false.
Proof.
have [M [E sp _ _]] :=
  @to_matrix_ComponentProjection rat keep_scheme left_scheme left_scheme
    left_scheme unit assembled [:: 1%N; 0%N] 2 swap_projection
    (Some "dense"%string) tt isT erefl isT.
by exists M.
Defined.

Lemma to_matrix_LincombOperator_witness :
  exists M, (to_matrix_rat twice_identity None).2 = Ok M.
Proof.
have [M E _] :=
  @to_matrix_LincombOperator rat keep_scheme left_scheme left_scheme
    left_scheme unit assembled 2 2 twice_identity [:: dense_identity]
    [:: fun _ : unit => 2%:Q] None tt [:: Mat Dense 1%:M] isT erefl erefl isT.
by exists M.
Defined.

Lemma to_matrix_double_adjoint_witness :
  entries (to_matrix_rat
             (AdjointOperator (AdjointOperator dense_identity None None)
                None None) None)
  = entries (to_matrix_rat dense_identity None).
Proof.
rewrite /to_matrix_rat.
exact: (@to_matrix_double_adjoint rat keep_scheme left_scheme left_scheme
          left_scheme unit assembled 2 2 dense_identity None tt isT erefl erefl).
Defined.

Lemma mutators_leave_others_witness :
  exists s', run true (Scal (AlphaNum Float64 2%:Q) IndNone) 0 store_two
             = Ok (tt, s')
             /\ data s' 1 = data store_two 1.
Proof.
have [s' [E _ _ others]] :=
  mutators_leave_others true (m := Scal (AlphaNum Float64 2%:Q) IndNone)
    store_two_ok store_two_sharing (isT : (0 < 2)%N) isT isT.
by exists s'; split=> //; have [] := others 1%N isT isT isT.
Defined.

Lemma scal_spec_witness :
  exists s', scal true 0 (AlphaNum Float64 2%:Q) IndNone store_one = Ok (tt, s')
             /\ len s' 0 = 2%N.
Proof.
have [s' [E len' _ _]] :=
  scal_spec true (alpha := AlphaNum Float64 2%:Q) (ind := IndNone)
    store_one_ok (isT : (0 < 1)%N) (leqnn 2) isT isT.
by exists s'.
Defined.

Lemma axpy_spec_witness :
  exists s', axpy true 0 (AlphaNum Float64 2%:Q) 1 IndNone store_two
             = Ok (tt, s')
             /\ len s' 0 = 2%N.
Proof.
have pre : axpy_pre store_two 0 (AlphaNum Float64 2%:Q) 1 IndNone by [].
have [s' [E len' _ _]] :=
  axpy_spec true (ind := IndNone) store_two_ok (isT : (0 < 2)%N)
    (isT : (1 < 2)%N) (leqnn 2) (leqnn 1) isT isT pre.
by exists s'.
Defined.

Lemma copy_deep_independent_witness :
  exists s', copy true 0 IndNone true store_one = Ok (1%N, s')
             /\ refcount_of s' 1 = 1.
Proof.
have [s' [E [_ rc _] _ _]] :=
  copy_deep_independent true (ind := IndNone) (deep := true) store_one_ok
    (isT : (0 < 1)%N) (leqnn 2) isT isT.
by exists s'.
Defined.

Lemma make_array_spec_witness :
  exists s', make_array 3 2 5 store_one = Ok (1%N, s') /\ len s' 1 = 2%N.
Proof.
have [s' [E [len' _ _] _ _ _]] := make_array_spec 3 2 5 store_one_ok.
by exists s'.
Defined.

Lemma reserve_then_append_witness :
  exists s1 s2, make_array 2 0 3 store_one = Ok (1%N, s1)
                /\ append 1 0 false s1 = Ok (tt, s2).
Proof.
have [s1 [s2 [E1 E2 _ _]]] :=
  reserve_then_append (reserve := 3) store_one_ok (isT : (0 < 1)%N)
    (leqnn 2) isT.
by exists s1, s2.
Defined.

Lemma copy_then_del_witness :
  exists c s1 s2, copy true 0 IndNone false store_one = Ok (c, s1)
                  /\ __del__ c s1 = Ok (tt, s2).
Proof.
have [c [s1 [s2 [E1 _ E2 _]]]] :=
  copy_then_del true store_one_ok (isT : (0 < 1)%N).
by exists c, s1, s2.
Defined.

Lemma pairwise_dot_diagonal_witness :
  exists G pd, va_dot id 0 0 store_one = Ok (G, store_one)
               /\ pairwise_dot id 0 0 store_one = Ok (pd, store_one).
Proof.
have [G [pd [E1 E2 _ _]]] :=
  pairwise_dot_diagonal id (s := store_one) (v := 0) (w := 0) (leqnn 2)
    (leqnn 2) erefl.
by exists G, pd.
Defined.

Lemma amax_le_l1_norm_witness :
  exists norms, l1_norm 0 store_one = Ok (norms, store_one).
Proof.
have [mi [mv [norms [_ E _ _]]]] :=
  amax_le_l1_norm (s := store_one) (v := 0) isT.
by exists norms.
Defined.

Lemma components_all_witness :
  exists C, components true 0 [:: 0; 1] store_one = Ok (C, store_one)
            /\ rows C = data store_one 0.
Proof.
have [C [E _ rowsC]] :=
  components_all (NUMPY_INDEX_QUIRK := true) (s := store_one) (v := 0) isT isT.
by exists C.
Defined.

Lemma VectorArrayOperator_lincomb_witness :
  exists M s',
    (to_matrix_rat array_operator None).2 = Ok M
    /\ lincomb 0 (Coeff1 Float64 [seq (1 : rat) | l <- enum 'I_2]) store_one
       = Ok (1%N, s').
Proof.
have [M [s' [E1 E2 _ _ _]]] :=
  @VectorArrayOperator_lincomb rat keep_scheme left_scheme left_scheme
    left_scheme unit assembled store_one 0 Float64 (const_mx 1) None tt isT
    erefl store_one_ok.
exists M, s'; split=> //.
by rewrite -E2; congr (lincomb _ (Coeff1 _ _) _); apply: eq_map => l; rewrite mxE.
Defined.
